(** * zeep.wsdl.wsdl: the WSDL definition graph (Document / Definition)

    A shallow embedding of [src/zeep/wsdl/wsdl.py].  Python objects that are
    shared by reference (the [Definition] instances of one [Document]) live in
    an object store indexed by references; dictionaries are insertion-ordered
    association lists (the iteration order of CPython dicts since 3.6/3.7 and
    of [OrderedDict]); exceptions are the [Raise] results of a small error
    monad; the recursion of [Definition.__init__] and of
    [Definition.resolve_imports] is driven by fuel, and [Diverge] is the
    result of a run that exhausts it. *)

From Stdlib Require Import String List Bool Arith Lia.
From stdpp Require Import base option list gmap strings pretty.

Open Scope string_scope.
Open Scope list_scope.

(** ** Results of Python calls *)

Inductive Exception :=
| IndexError (msg : string)            (* raised by [Definition.get] *)
| KeyError (key : option string)       (* a failed [dict[key]] *)
| ExternalError (what : string)        (* raised inside a collaborator *)
| DanglingReference.                   (* a reference outside the object store *)

(** What a call that returns leaves: a value or an exception. *)
Inductive Outcome (A : Type) :=
| Ok (a : A)
| Raise (e : Exception).
Arguments Ok {A} a.
Arguments Raise {A} e.

#[global] Instance Outcome_ret : MRet Outcome := fun _ a => Ok a.
#[global] Instance Outcome_bind : MBind Outcome := fun _ _ f m =>
  match m with
  | Ok a => f a
  | Raise e => Raise e
  end.

(** The result of a recursive method run with fuel: the outcome of the call,
    or [Diverge] when the fuel did not suffice. *)
Inductive Result (A : Type) :=
| Done (o : Outcome A)
| Diverge.
Arguments Done {A} o.
Arguments Diverge {A}.

#[global] Instance Result_ret : MRet Result := fun _ a => Done (Ok a).
#[global] Instance Result_bind : MBind Result := fun _ _ f m =>
  match m with
  | Done (Ok a) => f a
  | Done (Raise e) => Done (Raise e)
  | Diverge => Diverge
  end.

Definition terminates {A} (r : Result A) : Prop := r <> Diverge.

(** ** Python dictionaries, in insertion order *)

Section PyDict.
Context {K V : Type} `{EqDecision K}.

Definition dict := list (K * V).

Fixpoint dict_get (d : dict) (k : K) : option V :=
  match d with
  | [] => None
  | (k', v) :: d' => if decide (k' = k) then Some v else dict_get d' k
  end.

(** [d[k] = v]: an existing key keeps its position, a new one goes last. *)
Fixpoint dict_set (d : dict) (k : K) (v : V) : dict :=
  match d with
  | [] => [(k, v)]
  | (k', v') :: d' =>
      if decide (k' = k) then (k, v) :: d' else (k', v') :: dict_set d' k v
  end.

Definition dict_keys (d : dict) : list K := map fst d.
Definition dict_values (d : dict) : list V := map snd d.

(** [k in d] *)
Definition dict_contains (d : dict) (k : K) : bool :=
  match dict_get d k with Some _ => true | None => false end.

End PyDict.
Arguments dict K V : clear implicits.

(** ** lxml elements *)

Record QName := mkQName { qname_namespace : option string; localname : string }.

#[global] Instance QName_eq_dec : EqDecision QName.
Proof. solve_decision. Defined.

#[warnings="-register-all"]
Inductive Element :=
| mkElement (tag : QName) (nsmap : dict (option string) string)
            (attrib : dict string string) (children : list Element).

Definition tag (e : Element) : QName := let 'mkElement t _ _ _ := e in t.
Definition nsmap (e : Element) := let 'mkElement _ n _ _ := e in n.
Definition attrib (e : Element) := let 'mkElement _ _ a _ := e in a.
Definition children (e : Element) := let 'mkElement _ _ _ c := e in c.

(** [e.get(name)] *)
Definition el_get (e : Element) (name : string) : option string :=
  dict_get (attrib e) name.

(** [e.set(name, value)] *)
Definition el_set (e : Element) (name value : string) : Element :=
  mkElement (tag e) (nsmap e) (dict_set (attrib e) name value) (children e).

(** [e.findall(tag)] with a tag that names direct children. *)
Definition findall (e : Element) (t : QName) : list Element :=
  filter (fun c => tag c = t) (children e).

(** [e.find(tag)] *)
Definition find (e : Element) (t : QName) : option Element :=
  head (findall e t).

(** [etree.Element(tag)] *)
Definition etree_Element (t : QName) : Element := mkElement t [] [] [].

(** Python truthiness of an attribute value: [None] and [''] are false. *)
Definition truthy (s : option string) : bool :=
  match s with
  | None => false
  | Some s => negb (String.eqb s "")
  end.

Definition NSMAP_wsdl : string := "http://schemas.xmlsoap.org/wsdl/".
Definition wsdl (local : string) : QName := mkQName (Some NSMAP_wsdl) local.
Definition XSD_2001 : string := "http://www.w3.org/2001/XMLSchema".

(** ** Collaborator types

    [zeep.xsd.Schema], [zeep.xsd.context.ParserContext] and the entity classes
    of [zeep.wsdl.definitions], [zeep.wsdl.soap] and [zeep.wsdl.http] are
    imported by the module and defined elsewhere. *)

(** Modelled from the spec: [Schema(node, transport, location, parser_context,
    base_url)] of [zeep.xsd] is missing; a schema is the fragment it wraps
    ([None] for the explicitly empty schema) and the location that scopes it
    (the module always passes the same value as location and base url). *)
Record Schema := mkSchema {
  schema_node : option Element;
  schema_location : option string
}.

(** Modelled from the spec: [ParserContext] of [zeep.xsd.context] is missing;
    it is the content-resolution side table, from a synthetic location token
    to the registered fragment and to the location it is relative to. *)
Record ParserContext := mkParserContext {
  schema_nodes : dict string Element;
  schema_locations : dict string (option string)
}.

(** The four binding classes the module dispatches on. *)
Inductive BindingKind := Soap11Binding | Soap12Binding | HttpGetBinding | HttpPostBinding.

#[global] Instance BindingKind_eq_dec : EqDecision BindingKind.
Proof. solve_decision. Defined.

(** The instances of the entity classes, opaque to this module. *)
Class Entities := {
  Message : Type;
  PortType : Type;
  Binding : Type;
  Service : Type
}.

(** References to [Definition] instances: indices into the object store. *)
Abbreviation ref := nat (only parsing).

Section DataModel.
Context `{Entities}.

(** What a table of a [Definition] holds.  A binding is an instance of the
    class that parsed it. *)
Inductive Object :=
| MessageObj (m : Message)
| PortTypeObj (p : PortType)
| BindingObj (kind : BindingKind) (b : Binding)
| ServiceObj (s : Service).


(** [class Definition] (its name is a keyword of Rocq). *)
Record WsdlDefinition := mkDefinition {
  location : option string;
  schema : option Schema;
  port_types : dict string Object;
  messages : dict string Object;
  bindings : dict string Object;
  services : dict string Object;
  imports : dict (option string) ref;
  _resolved_imports : bool;
  target_namespace : option string;
  def_nsmap : dict (option string) string
}.

(** [class Document]: the fields [Definition] reads and writes, and the store
    of the [Definition] instances created for it. *)
Record Document := mkDocument {
  doc_location : option string;
  _definitions : gmap (option string) ref;
  _parser_context : ParserContext;
  heap : list WsdlDefinition
}.

Definition set_heap (h : list WsdlDefinition) (w : Document) : Document :=
  mkDocument (doc_location w) (_definitions w) (_parser_context w) h.
Definition set_definitions (ds : gmap (option string) ref) (w : Document) : Document :=
  mkDocument (doc_location w) ds (_parser_context w) (heap w).
Definition set_parser_context (pc : ParserContext) (w : Document) : Document :=
  mkDocument (doc_location w) (_definitions w) pc (heap w).

Definition set_schema (s : option Schema) (d : WsdlDefinition) : WsdlDefinition :=
  mkDefinition (location d) s (port_types d) (messages d) (bindings d)
    (services d) (imports d) (_resolved_imports d) (target_namespace d) (def_nsmap d).
Definition set_port_types (t : dict string Object) (d : WsdlDefinition) : WsdlDefinition :=
  mkDefinition (location d) (schema d) t (messages d) (bindings d)
    (services d) (imports d) (_resolved_imports d) (target_namespace d) (def_nsmap d).
Definition set_messages (t : dict string Object) (d : WsdlDefinition) : WsdlDefinition :=
  mkDefinition (location d) (schema d) (port_types d) t (bindings d)
    (services d) (imports d) (_resolved_imports d) (target_namespace d) (def_nsmap d).
Definition set_bindings (t : dict string Object) (d : WsdlDefinition) : WsdlDefinition :=
  mkDefinition (location d) (schema d) (port_types d) (messages d) t
    (services d) (imports d) (_resolved_imports d) (target_namespace d) (def_nsmap d).
Definition set_services (t : dict string Object) (d : WsdlDefinition) : WsdlDefinition :=
  mkDefinition (location d) (schema d) (port_types d) (messages d) (bindings d)
    t (imports d) (_resolved_imports d) (target_namespace d) (def_nsmap d).
Definition set_imports (i : dict (option string) ref) (d : WsdlDefinition) : WsdlDefinition :=
  mkDefinition (location d) (schema d) (port_types d) (messages d) (bindings d)
    (services d) i (_resolved_imports d) (target_namespace d) (def_nsmap d).
Definition set_resolved_imports (b : bool) (d : WsdlDefinition) : WsdlDefinition :=
  mkDefinition (location d) (schema d) (port_types d) (messages d) (bindings d)
    (services d) (imports d) b (target_namespace d) (def_nsmap d).

(** [self.<field> = ...] on the instance behind a reference. *)
Definition update (self : ref) (f : WsdlDefinition -> WsdlDefinition) (w : Document) : Document :=
  set_heap (alter f self (heap w)) w.

(** ** [Definition.get] *)

(** The attribute names [get] is called with. *)
Inductive TableName := messages_t | port_types_t | bindings_t | services_t.

Definition table_name (name : TableName) : string :=
  match name with
  | messages_t => "messages"
  | port_types_t => "port_types"
  | bindings_t => "bindings"
  | services_t => "services"
  end.

(** [getattr(definition, name)] *)
Definition getattr (d : WsdlDefinition) (name : TableName) : dict string Object :=
  match name with
  | messages_t => messages d
  | port_types_t => port_types d
  | bindings_t => bindings d
  | services_t => services d
  end.

(** ['%r' % name] for a name without quotes or escapes. *)
Definition repr (s : string) : string := ("'" ++ s ++ "'")%string.

Definition no_definition_found (name : TableName) : Exception :=
  IndexError ("No definition " ++ repr (table_name name) ++ " found")%string.

(** The loop over [self.imports.values()] and the [raise] after it. *)
Fixpoint get_imported (w : Document) (name : TableName) (key : string)
    (definitions : list ref) : Outcome Object :=
  match definitions with
  | [] => Raise (no_definition_found name)
  | r :: rest =>
      match heap w !! r with
      | None => Raise DanglingReference
      | Some definition =>
          match dict_get (getattr definition name) key with
          | Some v => Ok v
          | None => get_imported w name key rest
          end
      end
  end.

Definition get (w : Document) (self : ref) (name : TableName) (key : string) : Outcome Object :=
  match heap w !! self with
  | None => Raise DanglingReference
  | Some d =>
      match dict_get (getattr d name) key with
      | Some v => Ok v
      | None => get_imported w name key (dict_values (imports d))
      end
  end.

End DataModel.

(** ** Collaborator operations

    The functions and methods the module calls and does not define:
    [zeep.parser] ([load_external], [parse_xml], [absolute_location]),
    [zeep.utils.findall_multiple_ns], [lxml.etree.tostring],
    [Schema.is_empty], and the [match], [parse] and [resolve] methods and the
    names of the entity classes.  A [parse] or [resolve] method reads the
    document and the definition it is given and returns (or updates) its own
    instance only. *)
Class Collaborators `{Entities} := {
  load_external : option string -> option string -> Outcome Element;
  parse_xml : string -> option string -> Outcome Element;
  etree_tostring : Element -> string;
  absolute_location : option string -> option string -> option string;
  (** [findall_multiple_ns(types, 'xsd:schema', namespace_sets)] *)
  findall_multiple_ns : Element -> list Element;
  is_empty : Schema -> bool;
  AbstractMessage_parse : Document -> ref -> Element -> Outcome Message;
  Message_name : Message -> string;
  Message_resolve : Document -> ref -> Message -> Outcome Message;
  PortType_parse : Document -> ref -> Element -> Outcome PortType;
  PortType_name : PortType -> string;
  PortType_resolve : Document -> ref -> PortType -> Outcome PortType;
  Binding_match : BindingKind -> Element -> bool;
  Binding_parse : BindingKind -> Document -> ref -> Element -> Outcome Binding;
  Binding_name : Binding -> string;
  Binding_resolve : BindingKind -> Document -> ref -> Binding -> Outcome Binding;
  Service_parse : Document -> ref -> Element -> Outcome Service;
  Service_name : Service -> string;
  Service_resolve : Document -> ref -> Service -> Outcome Service
}.

Section Parse.
Context `{Collaborators}.

(** [Document._parse_content(content, base_url)] *)
Definition _parse_content (w : Document) (content : string) (base_url : option string)
    : Outcome Element :=
  parse_xml content base_url.

(** The [location] argument of [Document] and of [_load_content]: a location
    ([None] when an attribute is absent), or an object with [read]. *)
Inductive LocationArg := Location (l : option string) | Stream (content : string).

(** [Document._load_content(location)] *)
Definition _load_content (w : Document) (location : LocationArg) : Outcome Element :=
  match location with
  | Stream content => _parse_content w content None
  | Location l => load_external l (doc_location w)
  end.

(** [[f(x) for x in xs]] with a fallible [f]. *)
Fixpoint for_each {A B} (f : A -> Outcome B) (xs : list A) : Outcome (list B) :=
  match xs with
  | [] => Ok []
  | x :: rest => y ← f x; ys ← for_each f rest; Ok (y :: ys)
  end.

(** *** [Definition.parse_types] *)

(** ['intschema:xsd%d' % i] *)
Definition int_name (i : nat) : string := ("intschema:xsd" ++ pretty i)%string.

Definition import_tag : QName := mkQName (Some XSD_2001) "import".

(** The first loop: the mapping from namespace to internal location. *)
Fixpoint schema_ns_loop (i : nat) (schema_nodes : list Element)
    (schema_ns : dict (option string) string) : dict (option string) string :=
  match schema_nodes with
  | [] => schema_ns
  | schema_node :: rest =>
      let ns := el_get schema_node "targetNamespace" in
      schema_ns_loop (S i) rest (dict_set schema_ns ns (int_name i))
  end.

(** The body of the inner loop of the second one: an import without a
    location is pointed at the internal location of its namespace. *)
Definition rewrite_import (schema_ns : dict (option string) string)
    (import_node : Element) : Outcome Element :=
  let location := el_get import_node "schemaLocation" in
  let namespace := el_get import_node "namespace" in
  if negb (truthy location) then
    match dict_get schema_ns namespace with
    | Some internal => Ok (el_set import_node "schemaLocation" internal)
    | None => Raise (KeyError namespace)
    end
  else Ok import_node.

(** The new [xsd:import] element for the schema at index [i]. *)
Definition container_import (i : nat) (schema_node : Element) : Element :=
  let import_node := el_set (etree_Element import_tag) "schemaLocation" (int_name i) in
  if truthy (el_get schema_node "targetNamespace") then
    match el_get schema_node "targetNamespace" with
    | Some ns => el_set import_node "namespace" ns
    | None => import_node
    end
  else import_node.

(** The second loop: the children appended to the container. *)
Fixpoint container_loop (schema_ns : dict (option string) string) (i : nat)
    (schema_nodes : list Element) (container : list Element) : Outcome (list Element) :=
  match schema_nodes with
  | [] => Ok container
  | schema_node :: rest =>
      let container := container ++ [container_import i schema_node] in
      copies ← for_each (rewrite_import schema_ns) (findall schema_node import_tag);
      container_loop schema_ns (S i) rest (container ++ copies)
  end.

(** The schema nodes are registered in the parser context by reference, so
    the side table sees the import nodes as the second loop leaves them. *)
Definition after_rewrite (schema_ns : dict (option string) string)
    (schema_node : Element) : Element :=
  mkElement (tag schema_node) (nsmap schema_node) (attrib schema_node)
    (map (fun c =>
            if decide (tag c = import_tag) then
              match rewrite_import schema_ns c with Ok c' => c' | _ => c end
            else c)
         (children schema_node)).

Fixpoint register_loop (schema_ns : dict (option string) string) (self_location : option string)
    (i : nat) (nodes : list Element) (pc : ParserContext) : ParserContext :=
  match nodes with
  | [] => pc
  | schema_node :: rest =>
      register_loop schema_ns self_location (S i) rest
        (mkParserContext
           (dict_set (schema_nodes pc) (int_name i) (after_rewrite schema_ns schema_node))
           (dict_set (schema_locations pc) (int_name i) self_location))
  end.

(** The [xsd:schema] elements found under [wsdl:types]. *)
Definition find_schema_nodes (doc : Element) : list Element :=
  let types := find doc (wsdl "types") in
  match types with
  | None => []
  | Some types =>
      if Nat.eqb (length (children types)) 0 then [] else findall_multiple_ns types
  end.

(** The list comprehension that parses every schema node again. *)
Definition reparse (w : Document) (self_location : option string)
    (schema_nodes : list Element) : Outcome (list Element) :=
  for_each
    (fun schema_node => _parse_content w (etree_tostring schema_node) self_location)
    schema_nodes.

Definition parse_types (w : Document) (self_location : option string) (doc : Element)
    : Outcome (Document * option Schema) :=
  let schema_nodes := find_schema_nodes doc in
  match schema_nodes with
  | [] => Ok (w, None)
  | _ =>
      schema_nodes ← reparse w self_location schema_nodes;
      match schema_nodes with
      | [schema_node] => Ok (w, Some (mkSchema (Some schema_node) self_location))
      | _ =>
          let schema_ns := schema_ns_loop 0 schema_nodes [] in
          container ← container_loop schema_ns 0 schema_nodes [];
          let schema_node := mkElement (mkQName (Some XSD_2001) "schema") [] [] container in
          let pc := register_loop schema_ns self_location 0 schema_nodes (_parser_context w) in
          Ok (set_parser_context pc w, Some (mkSchema (Some schema_node) self_location))
      end
  end.

(** *** [parse_messages], [parse_ports], [parse_binding], [parse_service] *)

Fixpoint parse_messages_loop (w : Document) (self : ref) (nodes : list Element)
    (result : dict string Object) : Outcome (dict string Object) :=
  match nodes with
  | [] => Ok result
  | msg_node :: rest =>
      msg ← AbstractMessage_parse w self msg_node;
      parse_messages_loop w self rest (dict_set result (Message_name msg) (MessageObj msg))
  end.

Definition parse_messages (w : Document) (self : ref) (doc : Element) :=
  parse_messages_loop w self (findall doc (wsdl "message")) [].

Fixpoint parse_ports_loop (w : Document) (self : ref) (nodes : list Element)
    (result : dict string Object) : Outcome (dict string Object) :=
  match nodes with
  | [] => Ok result
  | port_node :: rest =>
      port_type ← PortType_parse w self port_node;
      parse_ports_loop w self rest
        (dict_set result (PortType_name port_type) (PortTypeObj port_type))
  end.

Definition parse_ports (w : Document) (self : ref) (doc : Element) :=
  parse_ports_loop w self (findall doc (wsdl "portType")) [].

(** The [if]/[elif] chain of [parse_binding]: [None] is its [continue]. *)
Definition detect_binding (w : Document) (self : ref) (binding_node : Element)
    : option (Outcome Object) :=
  if Binding_match Soap11Binding binding_node then
    Some (b ← Binding_parse Soap11Binding w self binding_node; Ok (BindingObj Soap11Binding b))
  else if Binding_match Soap12Binding binding_node then
    Some (b ← Binding_parse Soap12Binding w self binding_node; Ok (BindingObj Soap12Binding b))
  else if Binding_match HttpGetBinding binding_node then
    Some (b ← Binding_parse HttpGetBinding w self binding_node; Ok (BindingObj HttpGetBinding b))
  else if Binding_match HttpPostBinding binding_node then
    Some (b ← Binding_parse HttpPostBinding w self binding_node; Ok (BindingObj HttpPostBinding b))
  else None.

(** [binding.name.text] of an entry of the bindings table. *)
Definition object_name (o : Object) : string :=
  match o with
  | MessageObj m => Message_name m
  | PortTypeObj p => PortType_name p
  | BindingObj _ b => Binding_name b
  | ServiceObj s => Service_name s
  end.

Fixpoint parse_binding_loop (w : Document) (self : ref) (nodes : list Element)
    (result : dict string Object) : Outcome (dict string Object) :=
  match nodes with
  | [] => Ok result
  | binding_node :: rest =>
      match detect_binding w self binding_node with
      | None => parse_binding_loop w self rest result
      | Some parsed =>
          binding ← parsed;
          parse_binding_loop w self rest (dict_set result (object_name binding) binding)
      end
  end.

Definition parse_binding (w : Document) (self : ref) (doc : Element) :=
  parse_binding_loop w self (findall doc (wsdl "binding")) [].

Fixpoint parse_service_loop (w : Document) (self : ref) (nodes : list Element)
    (result : dict string Object) : Outcome (dict string Object) :=
  match nodes with
  | [] => Ok result
  | service_node :: rest =>
      service ← Service_parse w self service_node;
      parse_service_loop w self rest
        (dict_set result (Service_name service) (ServiceObj service))
  end.

Definition parse_service (w : Document) (self : ref) (doc : Element) :=
  parse_service_loop w self (findall doc (wsdl "service")) [].

End Parse.

Section Build.
Context `{Collaborators}.

(** *** [Definition.parse_imports] *)

(** The body of the loop.  [init] is the constructor [Definition(wsdl,
    document, location)]; [self_location] is [self.location], which
    [__init__] assigns once. *)
Definition parse_import
    (init : Document -> Element -> option string -> Result (Document * ref))
    (self : ref) (self_location : option string) (w : Document) (import_node : Element)
    : Result Document :=
  let location := el_get import_node "location" in
  let namespace := el_get import_node "namespace" in
  match _definitions w !! namespace with
  | Some definition =>
      mret (update self (fun d => set_imports (dict_set (imports d) namespace definition) d) w)
  | None =>
      document ← Done (_load_content w (Location location));
      let location := absolute_location location self_location in
      if String.eqb (localname (tag document)) "schema" then
        mret (update self (set_schema (Some (mkSchema (Some document) location))) w)
      else
        '(w, wsdl) ← init w document location;
        mret (update self (fun d => set_imports (dict_set (imports d) namespace wsdl) d) w)
  end.

Fixpoint parse_imports_loop
    (init : Document -> Element -> option string -> Result (Document * ref))
    (self : ref) (self_location : option string) (w : Document) (import_nodes : list Element)
    : Result Document :=
  match import_nodes with
  | [] => mret w
  | import_node :: rest =>
      w ← parse_import init self self_location w import_node;
      parse_imports_loop init self self_location w rest
  end.

Definition parse_imports
    (init : Document -> Element -> option string -> Result (Document * ref))
    (self : ref) (self_location : option string) (w : Document) (doc : Element)
    : Result Document :=
  parse_imports_loop init self self_location w (findall doc (wsdl "import")).

(** *** [Definition.__init__]

    The new instance is stored at the next free reference, the result of the
    constructor call. *)
Definition new_definition (location : option string) (doc : Element) : WsdlDefinition :=
  mkDefinition location None [] [] [] [] [] false (el_get doc "targetNamespace") (nsmap doc).

(** The statements of [__init__] after [self.parse_imports(doc)]. *)
Definition parse_local (w : Document) (self : ref) (location : option string)
    (doc : Element) : Outcome Document :=
  '(w, schema) ← parse_types w location doc;
  let w := update self (set_schema schema) w in
  messages ← parse_messages w self doc;
  let w := update self (set_messages messages) w in
  port_types ← parse_ports w self doc;
  let w := update self (set_port_types port_types) w in
  bindings ← parse_binding w self doc;
  let w := update self (set_bindings bindings) w in
  services ← parse_service w self doc;
  let w := update self (set_services services) w in
  mret w.

Fixpoint Definition_init (fuel : nat) (w : Document) (doc : Element)
    (location : option string) : Result (Document * ref) :=
  match fuel with
  | 0 => Diverge
  | S fuel =>
      let self := length (heap w) in
      let w := set_heap (heap w ++ [new_definition location doc]) w in
      let w := set_definitions (<[el_get doc "targetNamespace" := self]> (_definitions w)) w in
      w ← parse_imports (Definition_init fuel) self location w doc;
      w ← Done (parse_local w self location doc);
      mret (w, self)
  end.

(** *** [Definition.resolve_imports] *)

(** The [for] loop over [self.imports.values()] of the schema step.  It has
    no [break]. *)
Fixpoint adopt_schema_loop (w : Document) (self : ref) (definitions : list ref)
    : Outcome Document :=
  match definitions with
  | [] => Ok w
  | r :: rest =>
      match heap w !! r with
      | None => Raise DanglingReference
      | Some definition =>
          match schema definition with
          | Some s =>
              if negb (is_empty s)
              then adopt_schema_loop (update self (set_schema (Some s)) w) self rest
              else adopt_schema_loop w self rest
          | None => adopt_schema_loop w self rest
          end
      end
  end.

(** [if self.schema is None: for ...: ... else: self.schema = Schema(None, ...)];
    the [else] of a [for] runs whenever the loop ends without [break]. *)
Definition resolve_schema (w : Document) (self : ref) (d : WsdlDefinition)
    : Outcome Document :=
  match schema d with
  | None =>
      w ← adopt_schema_loop w self (dict_values (imports d));
      Ok (update self (set_schema (Some (mkSchema None (location d)))) w)
  | Some _ => Ok w
  end.

(** [obj.resolve(self)]: the method of the object's class. *)
Definition resolve_object (w : Document) (self : ref) (o : Object) : Outcome Object :=
  match o with
  | MessageObj m => m ← Message_resolve w self m; Ok (MessageObj m)
  | PortTypeObj p => p ← PortType_resolve w self p; Ok (PortTypeObj p)
  | BindingObj kind b => b ← Binding_resolve kind w self b; Ok (BindingObj kind b)
  | ServiceObj s => s ← Service_resolve w self s; Ok (ServiceObj s)
  end.

Definition set_table (name : TableName) (t : dict string Object) (d : WsdlDefinition)
    : WsdlDefinition :=
  match name with
  | messages_t => set_messages t d
  | port_types_t => set_port_types t d
  | bindings_t => set_bindings t d
  | services_t => set_services t d
  end.

(** [for obj in self.<name>.values(): obj.resolve(self)]; the object is
    updated in place, under its key. *)
Fixpoint resolve_table (name : TableName) (w : Document) (self : ref)
    (items : list (string * Object)) : Outcome Document :=
  match items with
  | [] => Ok w
  | (key, obj) :: rest =>
      obj ← resolve_object w self obj;
      resolve_table name
        (update self (fun d => set_table name (dict_set (getattr d name) key obj) d) w)
        self rest
  end.

(** The four loops that end [resolve_imports]. *)
Definition resolve_tables (w : Document) (self : ref) (d : WsdlDefinition)
    : Outcome Document :=
  w ← resolve_table messages_t w self (messages d);
  w ← resolve_table port_types_t w self (port_types d);
  w ← resolve_table bindings_t w self (bindings d);
  resolve_table services_t w self (services d).

(** [for definition in self.imports.values(): definition.resolve_imports()] *)
Fixpoint resolve_definitions (resolve : Document -> ref -> Result Document)
    (w : Document) (definitions : list ref) : Result Document :=
  match definitions with
  | [] => mret w
  | definition :: rest =>
      w ← resolve w definition;
      resolve_definitions resolve w rest
  end.

Fixpoint resolve_imports (fuel : nat) (w : Document) (self : ref) : Result Document :=
  match fuel with
  | 0 => Diverge
  | S fuel =>
      match heap w !! self with
      | None => Done (Raise DanglingReference)
      | Some d =>
          if _resolved_imports d then mret w
          else
            let w := update self (set_resolved_imports true) w in
            w ← Done (resolve_schema w self d);
            w ← resolve_definitions (resolve_imports fuel) w (dict_values (imports d));
            Done (resolve_tables w self d)
      end
  end.

(** *** [Document.__init__] *)

Definition new_document (location : LocationArg) : Document :=
  mkDocument (match location with Location l => l | Stream _ => None end)
    ∅ (mkParserContext [] []) [].

(** The result is the document and its root definition, whose [schema],
    [messages], [port_types], [bindings] and [services] the document
    publishes. *)
Definition Document_init (fuel : nat) (location : LocationArg) : Result (Document * ref) :=
  let w := new_document location in
  document ← Done (_load_content w location);
  '(w, root_definitions) ← Definition_init fuel w document (doc_location w);
  w ← resolve_imports fuel w root_definitions;
  mret (w, root_definitions).

End Build.

(** ** Vocabulary of the statements *)

Section Vocabulary.
Context `{Collaborators}.

(** The definition behind [r] has [v] under [key] in its own table [name]. *)
Definition declares (w : Document) (r : ref) (name : TableName) (key : string)
    (v : Object) : Prop :=
  exists d, heap w !! r = Some d /\ dict_get (getattr d name) key = Some v.

(** The definition behind [r] exists and has no [key] in its own table. *)
Definition lacks (w : Document) (r : ref) (name : TableName) (key : string) : Prop :=
  exists d, heap w !! r = Some d /\ dict_get (getattr d name) key = None.

(** [self.imports.values()], in the order of the dictionary. *)
Definition direct_imports (w : Document) (r : ref) : list ref :=
  match heap w !! r with
  | Some d => dict_values (imports d)
  | None => []
  end.

(** The binding classifier, in the words of the specification: an ordered,
    fixed list of matchers, of which the first to return true wins. *)
Definition matchers : list BindingKind :=
  [Soap11Binding; Soap12Binding; HttpGetBinding; HttpPostBinding].

Definition classify (binding_node : Element) : option BindingKind :=
  List.find (fun kind => Binding_match kind binding_node) matchers.

(** One declaration parsed the way [classify] says. *)
Definition parsed_as (w : Document) (self : ref) (node : Element) (kind : BindingKind)
    (b : Binding) : Prop :=
  classify node = Some kind /\ Binding_parse kind w self node = Ok b.

(** The schema stitcher, in the words of the specification.  The synthetic
    token of the fragment with target namespace [ns]: fragment [i] has the
    token [int_name i], and of several fragments of one namespace the last
    one keeps it. *)
Fixpoint synthetic_token_from (i : nat) (fragments : list Element) (ns : option string)
    : option string :=
  match fragments with
  | [] => None
  | f :: rest =>
      match synthetic_token_from (S i) rest ns with
      | Some t => Some t
      | None => if decide (el_get f "targetNamespace" = ns) then Some (int_name i) else None
      end
  end.

Definition synthetic_token (fragments : list Element) (ns : option string) : option string :=
  synthetic_token_from 0 fragments ns.

(** An import directive of a fragment as the container holds it: with an
    explicit location unchanged, without one pointing at the token of the
    fragment it names. *)
Definition stitched_import (fragments : list Element) (directive : Element) : Element :=
  if truthy (el_get directive "schemaLocation") then directive
  else
    match synthetic_token fragments (el_get directive "namespace") with
    | Some t => el_set directive "schemaLocation" t
    | None => directive
    end.

(** The body of the container: per fragment, the directive that imports it
    and then the fragment's own directives. *)
Fixpoint stitched_body_from (all : list Element) (i : nat) (fragments : list Element)
    : list Element :=
  match fragments with
  | [] => []
  | f :: rest =>
      container_import i f
        :: map (stitched_import all) (findall f import_tag)
        ++ stitched_body_from all (S i) rest
  end.

Definition stitched_container (fragments : list Element) : Element :=
  mkElement (mkQName (Some XSD_2001) "schema") [] []
    (stitched_body_from fragments 0 fragments).

(** Every import directive without a location names the target namespace of
    one of the fragments. *)
Definition imports_closed (fragments : list Element) : Prop :=
  forall f d, In f fragments -> In d (findall f import_tag) ->
    truthy (el_get d "schemaLocation") = false ->
    exists g, In g fragments /\ el_get g "targetNamespace" = el_get d "namespace".

(** The import declarations of a document name the target namespace of the
    definitions their locations hold. *)
Definition declares_true_namespaces (base : option string) (doc : Element) : Prop :=
  forall import_node document,
    In import_node (findall doc (wsdl "import")) ->
    load_external (el_get import_node "location") base = Ok document ->
    String.eqb (localname (tag document)) "schema" = false ->
    el_get document "targetNamespace" = el_get import_node "namespace".

(** The documents behind the loader are definitions of the namespaces [U],
    each with import declarations that name true namespaces. *)
Definition loader_well_formed (base : option string) (U : gset (option string)) : Prop :=
  forall location document,
    load_external location base = Ok document ->
    String.eqb (localname (tag document)) "schema" = false ->
    el_get document "targetNamespace" ∈ U /\ declares_true_namespaces base document.

(** The target namespaces of the definitions created so far, in order of
    creation. *)
Definition parsed_namespaces (w : Document) : list (option string) :=
  map target_namespace (heap w).

(** How often [Definition.__init__] ran for the namespace [ns]: every run
    leaves one instance in the store. *)
Definition times_parsed (w : Document) (ns : option string) : nat :=
  count_occ (fun x y => decide (x = y)) (parsed_namespaces w) ns.

(** The registry and the store agree: the registered namespaces are the
    parsed ones, and none was parsed twice. *)
Definition registry_inv (w : Document) : Prop :=
  NoDup (parsed_namespaces w) /\
  forall ns, ns ∈ parsed_namespaces w <-> ns ∈ dom (_definitions w).

(** The document as [__init__] leaves it before [self.parse_imports(doc)]:
    the new instance stored and registered under its target namespace. *)
Definition registered (w : Document) (doc : Element) (loc : option string) : Document :=
  set_definitions
    (<[el_get doc "targetNamespace" := length (heap w)]> (_definitions w))
    (set_heap (heap w ++ [new_definition loc doc]) w).

(** One import declaration names the target namespace of the definition its
    location holds. *)
Definition names_true_namespace (base : option string) (import_node : Element) : Prop :=
  forall document,
    load_external (el_get import_node "location") base = Ok document ->
    String.eqb (localname (tag document)) "schema" = false ->
    el_get document "targetNamespace" = el_get import_node "namespace".

(** What a run of the constructor keeps: the location of the document, the
    agreement of registry and store, and the bound [U] on the registry. *)
Definition init_inv (base : option string) (U : gset (option string)) (w : Document)
    : Prop :=
  doc_location w = base /\ registry_inv w /\ dom (_definitions w) ⊆ U.

(** [w'] has the definitions and the registry of [w]. *)
Definition same_definitions (w w' : Document) : Prop :=
  _definitions w' = _definitions w /\ parsed_namespaces w' = parsed_namespaces w.

(** A property of the result of a run with fuel.  An exception satisfies it;
    running out of fuel does only when [partial] says so. *)
Definition result_sat {A} (partial : bool) (Q : A -> Prop) (r : Result A) : Prop :=
  match r with
  | Done (Ok a) => Q a
  | Done (Raise _) => True
  | Diverge => partial = true
  end.

(** The [_resolved_imports] flags of the store, and how many definitions are
    not resolved yet. *)
Definition flags (w : Document) : list bool := map _resolved_imports (heap w).

Definition count_false (l : list bool) : nat := length (List.filter negb l).

Definition unresolved (w : Document) : nat := count_false (flags w).

(** No definition that is resolved in [w] is unresolved in [w']. *)
Definition keeps_resolved (w w' : Document) : Prop :=
  forall r d, heap w !! r = Some d ->
    exists d', heap w' !! r = Some d' /\
      (_resolved_imports d = true -> _resolved_imports d' = true).

End Vocabulary.

(** ** Further vocabulary *)

Section TableVocabulary.
Context {K V : Type} `{EqDecision K}.

(** [for k, v in items: table[k] = v] *)
Definition fill (table : dict K V) (items : list (K * V)) : dict K V :=
  fold_left (fun t kv => dict_set t (fst kv) (snd kv)) items table.

(** The elements of a list in the order of their first occurrence. *)
Fixpoint first_occurrences (l : list K) : list K :=
  match l with
  | [] => []
  | x :: rest => x :: List.filter (fun y => negb (bool_decide (y = x))) (first_occurrences rest)
  end.

(** The value of the last pair of [items] with the key [k]. *)
Definition last_with (items : list (K * V)) (k : K) : option V :=
  dict_get (rev items) k.

End TableVocabulary.

Section BuildVocabulary.
Context `{Collaborators}.

(** A table that holds the parsed entities under their names: the keys are
    the names in the order of their first declaration, and a name holds its
    last declaration. *)
Definition keyed_by_name {A} (name : A -> string) (wrap : A -> Object)
    (parsed : list A) (table : dict string Object) : Prop :=
  dict_keys table = first_occurrences (map name parsed) /\
  forall k, dict_get table k = last_with (map (fun a => (name a, wrap a)) parsed) k.

(** Every entry of the registry is a definition of the namespace it is
    registered under. *)
Definition registry_typed (w : Document) : Prop :=
  forall ns r, _definitions w !! ns = Some r ->
    exists d, heap w !! r = Some d /\ target_namespace d = ns.

(** Every import link is the registry's entry for its namespace. *)
Definition links_agree (w : Document) : Prop :=
  forall r d ns r', heap w !! r = Some d ->
    dict_get (imports d) ns = Some r' -> _definitions w !! ns = Some r'.

(** The namespaces of the import declarations of a document. *)
Definition declared_namespaces (doc : Element) : list (option string) :=
  map (fun import_node => el_get import_node "namespace") (findall doc (wsdl "import")).

(** What a constructor call that returned [self] in [w'] has done to the
    document [w] it started from. *)
Definition built (w : Document) (doc : Element) (loc : option string)
    (w' : Document) (self : ref) : Prop :=
  self = length (heap w) /\
  doc_location w' = doc_location w /\
  take (length (heap w)) (heap w') = heap w /\
  Forall (fun d => _resolved_imports d = false) (drop (length (heap w)) (heap w')) /\
  (exists d, heap w' !! self = Some d /\
     target_namespace d = el_get doc "targetNamespace" /\
     location d = loc /\
     forall ns, In ns (dict_keys (imports d)) -> In ns (declared_namespaces doc)) /\
  (registry_typed w -> registry_typed w').

(** The state of the new instance while its constructor runs. *)
Definition under_construction (w0 : Document) (doc : Element) (loc : option string)
    (w : Document) : Prop :=
  doc_location w = doc_location w0 /\
  take (length (heap w0)) (heap w) = heap w0 /\
  Forall (fun d => _resolved_imports d = false) (drop (length (heap w0)) (heap w)) /\
  (exists d, heap w !! length (heap w0) = Some d /\
     target_namespace d = el_get doc "targetNamespace" /\
     location d = loc /\
     forall ns, In ns (dict_keys (imports d)) -> In ns (declared_namespaces doc)) /\
  (registry_typed w0 -> registry_typed w).

(** The references of the registry and of the import links are definitions
    of the document. *)
Definition links_valid (w : Document) : Prop :=
  (forall ns r, _definitions w !! ns = Some r -> r < length (heap w)) /\
  (forall r r', In r' (direct_imports w r) -> r' < length (heap w)).

(** Every definition behind the loader declares true namespaces. *)
Definition loader_declares_true (base : option string) : Prop :=
  forall location document,
    load_external location base = Ok document ->
    String.eqb (localname (tag document)) "schema" = false ->
    declares_true_namespaces base document.

(** [self.imports[namespace] = definition] as a change of the instance. *)
Definition link (namespace : option string) (definition : ref) (d : WsdlDefinition)
    : WsdlDefinition :=
  set_imports (dict_set (imports d) namespace definition) d.

(** The definition behind [r] is resolved. *)
Definition resolved (w : Document) (r : ref) : Prop :=
  exists d, heap w !! r = Some d /\ _resolved_imports d = true.

(** [r'] is [r] or an import of [r], of an import of [r], and so on. *)
Inductive reachable (w : Document) : ref -> ref -> Prop :=
| reachable_here (r : ref) : reachable w r r
| reachable_import (r i r' : ref) :
    In i (direct_imports w r) -> reachable w i r' -> reachable w r r'.

(** What [resolve_imports] leaves of a definition: its location, namespace
    and imports, and the keys of its tables. *)
Definition shape (d : WsdlDefinition) :=
  (location d, target_namespace d, imports d,
   dict_keys (messages d), dict_keys (port_types d),
   dict_keys (bindings d), dict_keys (services d)).

(** The fields of a document outside its object store. *)
Definition outside_heap (w : Document) :=
  (doc_location w, _definitions w, _parser_context w).

(** [w'] differs from [w] only in what [g] does not see of the definitions. *)
Definition same_on {B} (g : WsdlDefinition -> B) (w w' : Document) : Prop :=
  outside_heap w' = outside_heap w /\ map g (heap w') = map g (heap w).

(** What the loops over the tables leave of a definition. *)
Definition frame (d : WsdlDefinition) := (shape d, _resolved_imports d, schema d).

(** Every resolved definition has a schema and, unless it is one of [stack]
    (the definitions whose [resolve_imports] is still running), only
    resolved imports. *)
Definition closed_except (stack : list ref) (w : Document) : Prop :=
  forall r d, heap w !! r = Some d -> _resolved_imports d = true ->
    schema d <> None /\
    (~ In r stack -> Forall (resolved w) (dict_values (imports d))).

(** Two calls end alike: both return, or both raise the same exception. *)
Definition same_outcome {A} (o o' : Outcome A) : Prop :=
  match o, o' with
  | Ok _, Ok _ => True
  | Raise e, Raise e' => e = e'
  | _, _ => False
  end.

End BuildVocabulary.

(** ** Sample documents

    A loader over a fixed set of files, and collaborators simple enough to
    run: an entity is its name and the number of times it was resolved. *)

Definition sample_entities : Entities :=
  {| Message := string * nat; PortType := string * nat;
     Binding := string * nat; Service := string * nat |}.

Definition xsd (local : string) : QName := mkQName (Some XSD_2001) local.
Definition soap11 (local : string) : QName :=
  mkQName (Some "http://schemas.xmlsoap.org/wsdl/soap/") local.
Definition soap12 (local : string) : QName :=
  mkQName (Some "http://schemas.xmlsoap.org/wsdl/soap12/") local.
Definition http (local : string) : QName :=
  mkQName (Some "http://schemas.xmlsoap.org/wsdl/http/") local.

Definition elem (t : QName) (attrs : dict string string) (cs : list Element) : Element :=
  mkElement t [] attrs cs.

Definition import_decl (ns location : string) : Element :=
  elem (wsdl "import") [("namespace", ns); ("location", location)] [].

Definition named (t : QName) (name : string) (cs : list Element) : Element :=
  elem t [("name", name)] cs.

Definition definitions (tns : string) (cs : list Element) : Element :=
  elem (wsdl "definitions") [("targetNamespace", tns)] cs.

(** A cycle of three definitions: a -> b -> c -> a. *)
Definition a_wsdl : Element :=
  definitions "urn:a"
    [import_decl "urn:b" "b.wsdl";
     named (wsdl "message") "GetPriceRequest" [];
     named (wsdl "message") "Shared" [];
     named (wsdl "binding") "PriceBinding" [elem (soap11 "binding") [] []];
     named (wsdl "binding") "Both" [elem (soap12 "binding") [] []; elem (soap11 "binding") [] []];
     named (wsdl "binding") "Unknown" [elem (wsdl "documentation") [] []];
     named (wsdl "binding") "PriceGet" [elem (http "binding") [("verb", "GET")] []]].

Definition b_wsdl : Element :=
  definitions "urn:b"
    [import_decl "urn:c" "c.wsdl";
     named (wsdl "message") "Shared" [];
     named (wsdl "message") "OnlyB" []].

Definition c_wsdl : Element :=
  definitions "urn:c"
    [import_decl "urn:a" "a.wsdl";
     named (wsdl "message") "OnlyC" []].

(** A definition that imports itself, and two that import each other. *)
Definition self_wsdl : Element :=
  definitions "urn:self" [import_decl "urn:self" "self.wsdl"].

Definition x_wsdl : Element :=
  definitions "urn:x" [import_decl "urn:y" "y.wsdl"].

Definition y_wsdl : Element :=
  definitions "urn:y" [import_decl "urn:x" "x.wsdl"].

(** A definition whose import declaration names a namespace that the
    imported document, the document itself, does not have. *)
Definition loop_wsdl : Element :=
  definitions "urn:loop" [import_decl "urn:other" "loop.wsdl"].

(** A definition without [types] that imports a bare schema. *)
Definition types_xsd : Element :=
  elem (xsd "schema") [("targetNamespace", "urn:types")]
    [named (xsd "element") "Price" []].

Definition s_wsdl : Element :=
  definitions "urn:s" [import_decl "urn:types" "types.xsd"].

(** A definition without [types] that imports one with a schema. *)
Definition q_schema : Element :=
  elem (xsd "schema") [("targetNamespace", "urn:q"); ("id", "q0")]
    [named (xsd "element") "Quote" []].

Definition q_wsdl : Element :=
  definitions "urn:q" [elem (wsdl "types") [] [q_schema]].

Definition p_wsdl : Element :=
  definitions "urn:p" [import_decl "urn:q" "q.wsdl"].

(** Two fragments, the first importing the second by namespace only and a
    third location explicitly. *)
Definition f1_schema : Element :=
  elem (xsd "schema") [("targetNamespace", "urn:f1"); ("id", "f1")]
    [elem (xsd "import") [("namespace", "urn:f2")] [];
     elem (xsd "import") [("namespace", "urn:ext"); ("schemaLocation", "ext.xsd")] []].

Definition f2_schema : Element :=
  elem (xsd "schema") [("targetNamespace", "urn:f2"); ("id", "f2")] [].

Definition t_wsdl : Element :=
  definitions "urn:t" [elem (wsdl "types") [] [f1_schema; f2_schema]].

(** Two fragments, the first importing a namespace that no fragment has. *)
Definition g1_schema : Element :=
  elem (xsd "schema") [("targetNamespace", "urn:g1"); ("id", "g1")]
    [elem (xsd "import") [("namespace", "urn:elsewhere")] []].

Definition u_wsdl : Element :=
  definitions "urn:u" [elem (wsdl "types") [] [g1_schema; f2_schema]].

Definition sample_files : dict string Element :=
  [("a.wsdl", a_wsdl); ("b.wsdl", b_wsdl); ("c.wsdl", c_wsdl);
   ("types.xsd", types_xsd); ("s.wsdl", s_wsdl);
   ("q.wsdl", q_wsdl); ("p.wsdl", p_wsdl); ("t.wsdl", t_wsdl); ("u.wsdl", u_wsdl);
   ("self.wsdl", self_wsdl); ("x.wsdl", x_wsdl); ("y.wsdl", y_wsdl)].

Definition loop_files : dict string Element := [("loop.wsdl", loop_wsdl)].

Definition sample_fragments : dict string Element :=
  [("q0", q_schema); ("f1", f1_schema); ("f2", f2_schema); ("g1", g1_schema)].

Definition sample_lookup (files : dict string Element) (key : option string)
    : Outcome Element :=
  match key with
  | Some k =>
      match dict_get files k with
      | Some e => Ok e
      | None => Raise (ExternalError "not found")
      end
  | None => Raise (ExternalError "no location")
  end.

Definition has_child (t : QName) (e : Element) : bool :=
  existsb (fun c => bool_decide (tag c = t)) (children e).

Definition sample_match (kind : BindingKind) (e : Element) : bool :=
  match kind with
  | Soap11Binding => has_child (soap11 "binding") e
  | Soap12Binding => has_child (soap12 "binding") e
  | HttpGetBinding =>
      existsb (fun c => bool_decide (tag c = http "binding")
                        && bool_decide (el_get c "verb" = Some "GET")) (children e)
  | HttpPostBinding =>
      existsb (fun c => bool_decide (tag c = http "binding")
                        && bool_decide (el_get c "verb" = Some "POST")) (children e)
  end.

Definition sample_parse (e : Element) : Outcome (string * nat) :=
  match el_get e "name" with
  | Some name => Ok (name, 0)
  | None => Raise (ExternalError "no name")
  end.

Definition sample_resolve (o : string * nat) : Outcome (string * nat) :=
  Ok (fst o, S (snd o)).

Definition sample_over (files : dict string Element) : @Collaborators sample_entities :=
  @Build_Collaborators sample_entities
    (* load_external *) (fun location _ => sample_lookup files location)
    (* parse_xml *) (fun content _ => sample_lookup sample_fragments (Some content))
    (* etree_tostring *) (fun e => default "" (el_get e "id"))
    (* absolute_location *) (fun location _ => location)
    (* findall_multiple_ns *) (fun types => findall types (xsd "schema"))
    (* is_empty *)
    (fun s =>
       match schema_node s with
       | Some e => Nat.eqb (length (children e)) 0
       | None => true
       end)
    (* AbstractMessage *) (fun _ _ e => sample_parse e) fst (fun _ _ m => sample_resolve m)
    (* PortType *) (fun _ _ e => sample_parse e) fst (fun _ _ p => sample_resolve p)
    (* Binding *) sample_match (fun _ _ _ e => sample_parse e) fst
                  (fun _ _ _ b => sample_resolve b)
    (* Service *) (fun _ _ e => sample_parse e) fst (fun _ _ s => sample_resolve s).

Definition sample : @Collaborators sample_entities := sample_over sample_files.

Definition sample_loop : @Collaborators sample_entities := sample_over loop_files.

(** The namespaces of the definitions behind the sample loader. *)
Definition sample_namespaces : gset (option string) :=
  list_to_set
    [Some "urn:a"; Some "urn:b"; Some "urn:c"; Some "urn:s"; Some "urn:q";
     Some "urn:p"; Some "urn:t"; Some "urn:u"; Some "urn:self"; Some "urn:x";
     Some "urn:y"].

(** The document a run returned. *)
Definition document_of (r : Result (@Document sample_entities * nat))
    : @Document sample_entities :=
  match r with
  | Done (Ok (w, _)) => w
  | _ => @new_document sample_entities (Location None)
  end.

Definition resolved_of (w : @Document sample_entities)
    (r : Result (@Document sample_entities)) : @Document sample_entities :=
  match r with
  | Done (Ok w') => w'
  | _ => w
  end.

(** The documents of [a.wsdl] and [p.wsdl] as the constructor of the root
    definition leaves them, and [a.wsdl] after [resolve_imports]. *)
Definition a_parsed : @Document sample_entities :=
  document_of
    (@Definition_init _ sample 5 (new_document (Location (Some "a.wsdl"))) a_wsdl
       (Some "a.wsdl")).

Definition a_resolved : @Document sample_entities :=
  resolved_of a_parsed (@resolve_imports _ sample 5 a_parsed 0).

Definition p_parsed : @Document sample_entities :=
  document_of
    (@Definition_init _ sample 5 (new_document (Location (Some "p.wsdl"))) p_wsdl
       (Some "p.wsdl")).

(** The fields of the definition behind a reference. *)
Definition field {A} (f : @WsdlDefinition sample_entities -> A)
    (w : @Document sample_entities) (r : nat) : option A :=
  f <$> heap w !! r.

(** What a constructor call left in its new definition. *)
Definition constructed {A} (f : @WsdlDefinition sample_entities -> A)
    (r : Result (@Document sample_entities * nat)) : option A :=
  match r with
  | Done (Ok (w, self)) => field f w self
  | _ => None
  end.

(** The empty document of [a.wsdl]; the document of [a.wsdl] after a second
    constructor call, on [x.wsdl]; the document of [a.wsdl] as
    [Document.__init__] builds it; and what [parse_types] returns for
    [t.wsdl], which has two fragments. *)
Definition a_empty : @Document sample_entities := new_document (Location (Some "a.wsdl")).

Definition ax_parsed : @Document sample_entities :=
  document_of (@Definition_init _ sample 5 a_parsed x_wsdl (Some "x.wsdl")).

Definition a_document : @Document sample_entities :=
  document_of (@Document_init _ sample 13 (Location (Some "a.wsdl"))).

Definition t_empty : @Document sample_entities := new_document (Location (Some "t.wsdl")).

Definition t_types : @Document sample_entities * option Schema :=
  match @parse_types _ sample t_empty (Some "t.wsdl") t_wsdl with
  | Ok r => r
  | Raise _ => (t_empty, None)
  end.

(** * Auxiliary facts about lists and dictionaries *)

Lemma in_split_first_occurrence {A} `{EqDecision A} (x : A) (l : list A) :
  In x l -> exists pre post, l = pre ++ x :: post /\ ~ In x pre.
Proof.
  induction l as [|y l IH]; [intros []|].
  intros Hin. destruct (decide (y = x)) as [->|Hne].
  - exists [], l. split; [reflexivity|intros []].
  - destruct Hin as [->|Hin]; [contradiction|].
    destruct (IH Hin) as (pre & post & -> & Hpre).
    exists (y :: pre), post. split; [reflexivity|].
    intros [->|Hp]; [contradiction|now apply Hpre].
Qed.

Section DictFacts.
Context {K V : Type} `{EqDecision K}.

Lemma dict_get_set (d : dict K V) (k k' : K) (v : V) :
  dict_get (dict_set d k v) k' = if decide (k = k') then Some v else dict_get d k'.
Proof.
  induction d as [|[k0 v0] d IH]; simpl.
  - destruct (decide (k = k')); reflexivity.
  - destruct (decide (k0 = k)) as [->|Hne]; simpl.
    + destruct (decide (k = k')); reflexivity.
    + rewrite IH. destruct (decide (k0 = k')) as [->|]; [|reflexivity].
      destruct (decide (k = k')); [congruence|reflexivity].
Qed.

Lemma dict_get_set_eq (d : dict K V) (k : K) (v : V) :
  dict_get (dict_set d k v) k = Some v.
Proof. rewrite dict_get_set. destruct (decide (k = k)); congruence. Qed.

Lemma dict_get_set_ne (d : dict K V) (k k' : K) (v : V) :
  k <> k' -> dict_get (dict_set d k v) k' = dict_get d k'.
Proof. intros. rewrite dict_get_set. destruct (decide (k = k')); congruence. Qed.

Lemma dict_get_Some_in (d : dict K V) (k : K) (v : V) :
  dict_get d k = Some v -> In (k, v) d.
Proof.
  induction d as [|[k0 v0] d IH]; simpl; [discriminate|].
  destruct (decide (k0 = k)) as [->|]; [intros [= ->]; now left|].
  intros Hd. right. now apply IH.
Qed.

Lemma dict_get_None_notin (d : dict K V) (k : K) :
  dict_get d k = None <-> ~ In k (dict_keys d).
Proof.
  induction d as [|[k0 v0] d IH]; simpl; [tauto|].
  destruct (decide (k0 = k)) as [->|Hne].
  - split; [discriminate|]. intros Hn. exfalso. apply Hn. now left.
  - rewrite IH. split; [intros Hn [?|?]; [contradiction|now apply Hn]|].
    intros Hn Hin. apply Hn. now right.
Qed.

(** A new key goes last, so the keys of a dictionary are in the order of
    their first assignment. *)
Lemma dict_keys_set (d : dict K V) (k : K) (v : V) :
  dict_keys (dict_set d k v) =
    if dict_contains d k then dict_keys d else dict_keys d ++ [k].
Proof.
  unfold dict_contains. induction d as [|[k0 v0] d IH]; simpl; [reflexivity|].
  destruct (decide (k0 = k)) as [->|Hne]; simpl; [reflexivity|].
  rewrite IH. now destruct (dict_get d k).
Qed.

End DictFacts.

(** * Properties *)

(** ** Qualified lookup: [Definition.get] *)

Section GetProperties.
Context `{Collaborators}.

Lemma get_imported_all_lack (w : Document) name key (rs : list ref) :
  Forall (fun r => lacks w r name key) rs ->
  get_imported w name key rs = Raise (no_definition_found name).
Proof.
  induction 1 as [|r rs [d [Hd Hk]] _ IH]; simpl; [reflexivity|].
  now rewrite Hd, Hk.
Qed.

Lemma get_imported_first (w : Document) name key (pre post : list ref) r v :
  Forall (fun r' => lacks w r' name key) pre ->
  declares w r name key v ->
  get_imported w name key (pre ++ r :: post) = Ok v.
Proof.
  intros Hpre [d [Hd Hk]].
  induction Hpre as [|r' pre [d' [Hd' Hk']] _ IH]; simpl.
  - now rewrite Hd, Hk.
  - now rewrite Hd', Hk'.
Qed.

Lemma get_unfold (w : Document) self name key d :
  heap w !! self = Some d ->
  get w self name key =
    match dict_get (getattr d name) key with
    | Some v => Ok v
    | None => get_imported w name key (direct_imports w self)
    end.
Proof. intros Hd. unfold get, direct_imports. now rewrite Hd. Qed.

Lemma get_own (w : Document) (self : ref) (name : TableName) (key : string) (v : Object) :
  declares w self name key v -> get w self name key = Ok v.
Proof. intros [d [Hd Hk]]. rewrite (get_unfold _ _ _ _ _ Hd). now rewrite Hk. Qed.

Lemma get_first_import (w : Document) (self : ref) (name : TableName) (key : string)
    (pre post : list ref) (r : ref) (v : Object) :
  lacks w self name key ->
  direct_imports w self = pre ++ r :: post ->
  Forall (fun r' => lacks w r' name key) pre ->
  declares w r name key v ->
  get w self name key = Ok v.
Proof.
  intros [d [Hd Hk]] Himp Hpre Hr.
  rewrite (get_unfold _ _ _ _ _ Hd), Hk, Himp.
  now apply get_imported_first.
Qed.



(** C9 (as the code has it).  When neither the definition nor any direct
    import has the key, the lookup raises [IndexError] with a message that
    names the table; the key is no part of it. *)
Theorem get_not_found (w : Document) (self : ref) (name : TableName) (key : string) :
  lacks w self name key ->
  Forall (fun r => lacks w r name key) (direct_imports w self) ->
  get w self name key =
    Raise (IndexError ("No definition '" ++ table_name name ++ "' found")%string).
Proof.
  intros [d [Hd Hk]] Himp.
  rewrite (get_unfold _ _ _ _ _ Hd), Hk.
  rewrite (get_imported_all_lack _ _ _ _ Himp).
  unfold no_definition_found, repr. do 2 f_equal.
  destruct name; reflexivity.
Qed.

End GetProperties.

(** ** Binding classification: [Definition.parse_binding] *)

Section BindingProperties.
Context `{Collaborators}.

(** The [if]/[elif] chain is the first matcher of the ordered list. *)
Lemma detect_binding_classify (w : Document) (self : ref) (binding_node : Element) :
  detect_binding w self binding_node =
    match classify binding_node with
    | Some kind =>
        Some (b ← Binding_parse kind w self binding_node; Ok (BindingObj kind b))
    | None => None
    end.
Proof.
  unfold detect_binding, classify, matchers. simpl.
  destruct (Binding_match Soap11Binding binding_node); [reflexivity|].
  destruct (Binding_match Soap12Binding binding_node); [reflexivity|].
  destruct (Binding_match HttpGetBinding binding_node); [reflexivity|].
  destruct (Binding_match HttpPostBinding binding_node); reflexivity.
Qed.

Lemma classify_Some_match (binding_node : Element) (kind : BindingKind) :
  classify binding_node = Some kind -> Binding_match kind binding_node = true.
Proof. intros Hc. now apply List.find_some in Hc as [_ Hm]. Qed.

Lemma classify_None_no_match (binding_node : Element) :
  classify binding_node = None <-> forall kind, Binding_match kind binding_node = false.
Proof.
  split.
  - intros Hc kind. apply (List.find_none _ _ Hc kind).
    unfold matchers. destruct kind; simpl; tauto.
  - intros Hno. unfold classify, matchers. simpl. now rewrite !Hno.
Qed.

Lemma parse_binding_loop_skip (w : Document) (self : ref) (nodes : list Element)
    (result : dict string Object) :
  parse_binding_loop w self nodes result =
  parse_binding_loop w self
    (List.filter (fun n => match classify n with Some _ => true | None => false end) nodes)
    result.
Proof.
  revert result. induction nodes as [|n nodes IH]; intros result; [reflexivity|].
  simpl. rewrite detect_binding_classify.
  destruct (classify n) as [kind|] eqn:Hc; simpl.
  - rewrite detect_binding_classify, Hc.
    destruct (Binding_parse kind w self n); simpl; [apply IH|reflexivity].
  - apply IH.
Qed.

Lemma parse_binding_loop_total (w : Document) (self : ref) (nodes : list Element)
    (result : dict string Object) :
  (forall node kind, In node nodes -> classify node = Some kind ->
     exists b, Binding_parse kind w self node = Ok b) ->
  exists table, parse_binding_loop w self nodes result = Ok table.
Proof.
  revert result. induction nodes as [|n nodes IH]; intros result Hall; simpl.
  - now exists result.
  - rewrite detect_binding_classify.
    destruct (classify n) as [kind|] eqn:Hc.
    + destruct (Hall n kind (or_introl eq_refl) Hc) as [b ->]. simpl.
      apply IH. intros node k Hin. apply Hall. now right.
    + apply IH. intros node k Hin. apply Hall. now right.
Qed.

Lemma parse_binding_loop_sound (w : Document) (self : ref) (nodes : list Element)
    (result table : dict string Object) :
  parse_binding_loop w self nodes result = Ok table ->
  forall name o, dict_get table name = Some o ->
    dict_get result name = Some o \/
    exists node kind b, In node nodes /\ parsed_as w self node kind b /\
      o = BindingObj kind b /\ Binding_name b = name.
Proof.
  revert result. induction nodes as [|n nodes IH]; intros result; simpl.
  - intros [= ->] name o Hget. now left.
  - rewrite detect_binding_classify.
    destruct (classify n) as [kind|] eqn:Hc.
    + destruct (Binding_parse kind w self n) as [b|] eqn:Hp; simpl; try discriminate.
      intros Hloop name o Hget.
      destruct (IH _ Hloop name o Hget) as [Hres|(node & k & b' & Hin & Hpa & Ho & Hn)].
      * rewrite dict_get_set in Hres.
        destruct (decide (Binding_name b = name)) as [Hname|]; [|now left].
        injection Hres as <-. right. exists n, kind, b.
        repeat split; auto.
      * right. exists node, k, b'. repeat split; try apply Hpa; auto.
    + intros Hloop name o Hget.
      destruct (IH _ Hloop name o Hget) as [Hres|(node & k & b' & Hin & Hpa & Ho & Hn)];
        [now left|].
      right. exists node, k, b'. repeat split; try apply Hpa; auto.
Qed.

(** An entry stays unless a later declaration of the same name replaces it. *)
Lemma parse_binding_loop_keeps (w : Document) (self : ref) (nodes : list Element)
    (result table : dict string Object) (name : string) (o : Object) :
  parse_binding_loop w self nodes result = Ok table ->
  dict_get result name = Some o ->
  (forall node kind b, In node nodes -> parsed_as w self node kind b ->
     Binding_name b <> name) ->
  dict_get table name = Some o.
Proof.
  revert result. induction nodes as [|n nodes IH]; intros result; simpl.
  - now intros [= ->].
  - rewrite detect_binding_classify.
    destruct (classify n) as [kind|] eqn:Hc.
    + destruct (Binding_parse kind w self n) as [b|] eqn:Hp; simpl; try discriminate.
      intros Hloop Hres Hlater. apply (IH _ Hloop).
      * rewrite dict_get_set_ne; [exact Hres|].
        apply (Hlater n kind b); [now left|now split].
      * intros node k b' Hin. apply Hlater. now right.
    + intros Hloop Hres Hlater. apply (IH _ Hloop Hres).
      intros node k b' Hin. apply Hlater. now right.
Qed.

Lemma parse_binding_loop_key (w : Document) (self : ref) (nodes : list Element)
    (result table : dict string Object) (name : string) :
  parse_binding_loop w self nodes result = Ok table ->
  is_Some (dict_get result name) -> is_Some (dict_get table name).
Proof.
  revert result. induction nodes as [|n nodes IH]; intros result; simpl.
  - now intros [= ->].
  - rewrite detect_binding_classify.
    destruct (classify n) as [kind|] eqn:Hc; [|apply IH].
    destruct (Binding_parse kind w self n) as [b|] eqn:Hp; simpl; try discriminate.
    intros Hloop Hres. apply (IH _ Hloop).
    rewrite dict_get_set. destruct (decide (Binding_name b = name)); eauto.
Qed.

Lemma parse_binding_loop_complete (w : Document) (self : ref) (pre post : list Element)
    (node : Element) (result table : dict string Object) :
  parse_binding_loop w self (pre ++ node :: post) result = Ok table ->
  forall kind, classify node = Some kind ->
  exists b, Binding_parse kind w self node = Ok b /\
    is_Some (dict_get table (Binding_name b)) /\
    ((forall node' kind' b', In node' post -> parsed_as w self node' kind' b' ->
        Binding_name b' <> Binding_name b) ->
     dict_get table (Binding_name b) = Some (BindingObj kind b)).
Proof.
  revert result. induction pre as [|n pre IH]; intros result; simpl.
  - rewrite detect_binding_classify. intros Hloop kind Hc. rewrite Hc in Hloop.
    destruct (Binding_parse kind w self node) as [b|] eqn:Hp; simpl in Hloop;
      try discriminate.
    exists b. split; [reflexivity|]. split.
    + apply (parse_binding_loop_key _ _ _ _ _ _ Hloop).
      rewrite dict_get_set_eq. eauto.
    + intros Hlater. apply (parse_binding_loop_keeps _ _ _ _ _ _ _ Hloop).
      * apply dict_get_set_eq.
      * exact Hlater.
  - rewrite detect_binding_classify.
    destruct (classify n) as [k|] eqn:Hc; [|apply IH].
    destruct (Binding_parse k w self n) as [b|] eqn:Hp; simpl; try discriminate.
    apply IH.
Qed.

(** C7.  The classifiers are tried in the order SOAP 1.1, SOAP 1.2, HTTP GET,
    HTTP POST and the first that matches gives the binding its kind; a node
    that none matches adds no entry and raises nothing; the table holds the
    matched declarations under their names (the last declaration of a name,
    when a name is declared twice). *)
Theorem parse_binding_first_match (w : Document) (self : ref) (doc : Element) :
  let nodes := findall doc (wsdl "binding") in
  (forall node,
     detect_binding w self node =
       match List.find (fun kind => Binding_match kind node)
               [Soap11Binding; Soap12Binding; HttpGetBinding; HttpPostBinding] with
       | Some kind => Some (b ← Binding_parse kind w self node; Ok (BindingObj kind b))
       | None => None
       end) /\
  parse_binding w self doc =
    parse_binding_loop w self
      (List.filter (fun n => existsb (fun kind => Binding_match kind n) matchers) nodes) [] /\
  ((forall node kind, In node nodes -> classify node = Some kind ->
      exists b, Binding_parse kind w self node = Ok b) ->
   exists table, parse_binding w self doc = Ok table) /\
  (forall table, parse_binding w self doc = Ok table ->
     (forall name o, dict_get table name = Some o ->
        exists node kind b, In node nodes /\ parsed_as w self node kind b /\
          o = BindingObj kind b /\ Binding_name b = name) /\
     (forall pre node post kind, nodes = pre ++ node :: post ->
        classify node = Some kind ->
        exists b, Binding_parse kind w self node = Ok b /\
          is_Some (dict_get table (Binding_name b)) /\
          ((forall node' kind' b', In node' post -> parsed_as w self node' kind' b' ->
              Binding_name b' <> Binding_name b) ->
           dict_get table (Binding_name b) = Some (BindingObj kind b)))).
Proof.
  intros nodes. split; [|split; [|split]].
  - intros node. apply detect_binding_classify.
  - unfold parse_binding. fold nodes. rewrite parse_binding_loop_skip.
    f_equal. apply List.filter_ext. intros n. unfold classify.
    destruct (List.find _ matchers) as [k|] eqn:Hf.
    + apply List.find_some in Hf as [Hin Hm]. symmetry. apply existsb_exists. eauto.
    + symmetry. apply not_true_is_false. intros Hex.
      apply existsb_exists in Hex as (k & Hin & Hm).
      pose proof (List.find_none _ _ Hf k Hin) as Hno. simpl in Hno. congruence.
  - intros Hall. now apply parse_binding_loop_total.
  - intros table Hparse. split.
    + intros name o Hget.
      destruct (parse_binding_loop_sound _ _ _ _ _ Hparse name o Hget) as [Hnil|Hex];
        [discriminate|exact Hex].
    + intros pre node post kind Hnodes Hc. unfold parse_binding in Hparse.
      fold nodes in Hparse. rewrite Hnodes in Hparse.
      apply (parse_binding_loop_complete _ _ _ _ _ _ _ Hparse kind Hc).
Qed.

End BindingProperties.

(** ** Schema stitching: [Definition.parse_types] *)

Section TypesProperties.
Context `{Collaborators}.

Lemma for_each_length {A B} (f : A -> Outcome B) (xs : list A) (ys : list B) :
  for_each f xs = Ok ys -> length ys = length xs.
Proof.
  revert ys. induction xs as [|x xs IH]; simpl; intros ys.
  - now intros [= <-].
  - destruct (f x); simpl; try discriminate.
    destruct (for_each f xs) as [ys'|]; simpl; try discriminate.
    intros [= <-]. simpl. f_equal. now apply IH.
Qed.

Lemma for_each_map {A B} (f : A -> Outcome B) (g : A -> B) (xs : list A) :
  (forall x, In x xs -> f x = Ok (g x)) -> for_each f xs = Ok (map g xs).
Proof.
  induction xs as [|x xs IH]; simpl; intros Hf; [reflexivity|].
  rewrite (Hf x (or_introl eq_refl)). simpl.
  rewrite IH; [reflexivity|]. intros y Hy. apply Hf. now right.
Qed.

(** The namespace mapping of the first loop is the token assignment of the
    specification. *)
Lemma schema_ns_loop_get (i : nat) (fragments : list Element)
    (acc : dict (option string) string) (ns : option string) :
  dict_get (schema_ns_loop i fragments acc) ns =
    match synthetic_token_from i fragments ns with
    | Some t => Some t
    | None => dict_get acc ns
    end.
Proof.
  revert i acc. induction fragments as [|f rest IH]; intros i acc; simpl; [reflexivity|].
  rewrite IH. destruct (synthetic_token_from (S i) rest ns); [reflexivity|].
  rewrite dict_get_set. destruct (decide (el_get f "targetNamespace" = ns)); reflexivity.
Qed.

Lemma schema_ns_synthetic_token (fragments : list Element) (ns : option string) :
  dict_get (schema_ns_loop 0 fragments []) ns = synthetic_token fragments ns.
Proof.
  rewrite schema_ns_loop_get. unfold synthetic_token.
  now destruct (synthetic_token_from 0 fragments ns).
Qed.

Lemma synthetic_token_from_Some (i : nat) (fragments : list Element)
    (ns : option string) (t : string) :
  synthetic_token_from i fragments ns = Some t ->
  exists j g, fragments !! j = Some g /\ el_get g "targetNamespace" = ns /\
    t = int_name (i + j).
Proof.
  revert i. induction fragments as [|f rest IH]; intros i; simpl; [discriminate|].
  destruct (synthetic_token_from (S i) rest ns) as [t'|] eqn:Hrest.
  - intros [= <-]. destruct (IH _ Hrest) as (j & g & Hj & Hg & ->).
    exists (S j), g. repeat split; auto; f_equal; lia.
  - destruct (decide (el_get f "targetNamespace" = ns)); [|discriminate].
    intros [= <-]. exists 0, f. repeat split; auto; f_equal; lia.
Qed.

Lemma synthetic_token_from_None (i : nat) (fragments : list Element) (ns : option string) :
  synthetic_token_from i fragments ns = None <->
  forall g, In g fragments -> el_get g "targetNamespace" <> ns.
Proof.
  revert i. induction fragments as [|f rest IH]; intros i; simpl; [tauto|].
  destruct (synthetic_token_from (S i) rest ns) as [t'|] eqn:Hrest.
  - split; [discriminate|]. intros Hall. exfalso.
    assert (Hnone : synthetic_token_from (S i) rest ns = None).
    { apply IH. intros g Hg. apply Hall. now right. }
    congruence.
  - pose proof (proj1 (IH _) Hrest) as Hall.
    destruct (decide (el_get f "targetNamespace" = ns)) as [Heq|Hne].
    + split; [discriminate|]. intros Hall'. exfalso. now apply (Hall' f (or_introl eq_refl)).
    + split; [|reflexivity]. intros _ g [<-|Hg]; [exact Hne|now apply Hall].
Qed.

(** What [rewrite_import] does to one directive. *)
Lemma rewrite_import_stitched (fragments : list Element) (d : Element) :
  (truthy (el_get d "schemaLocation") = false ->
   exists g, In g fragments /\ el_get g "targetNamespace" = el_get d "namespace") ->
  rewrite_import (schema_ns_loop 0 fragments []) d = Ok (stitched_import fragments d).
Proof.
  intros Hclosed. unfold rewrite_import, stitched_import.
  destruct (truthy (el_get d "schemaLocation")) eqn:Hloc; simpl; [reflexivity|].
  rewrite schema_ns_synthetic_token.
  destruct (synthetic_token fragments (el_get d "namespace")) as [t|] eqn:Ht; [reflexivity|].
  destruct (Hclosed eq_refl) as (g & Hg & Hns).
  exfalso. apply (proj1 (synthetic_token_from_None 0 fragments _) Ht g Hg Hns).
Qed.

Lemma rewrite_import_unknown (fragments : list Element) (d : Element) :
  truthy (el_get d "schemaLocation") = false ->
  (forall g, In g fragments -> el_get g "targetNamespace" <> el_get d "namespace") ->
  rewrite_import (schema_ns_loop 0 fragments []) d = Raise (KeyError (el_get d "namespace")).
Proof.
  intros Hloc Hunknown. unfold rewrite_import. rewrite Hloc. simpl.
  rewrite schema_ns_synthetic_token. unfold synthetic_token.
  now rewrite (proj2 (synthetic_token_from_None 0 fragments _) Hunknown).
Qed.

(** A directive is either rewritten or a failed lookup. *)
Lemma rewrite_import_cases (schema_ns : dict (option string) string) (d : Element) :
  (exists d', rewrite_import schema_ns d = Ok d') \/
  rewrite_import schema_ns d = Raise (KeyError (el_get d "namespace")).
Proof.
  unfold rewrite_import.
  destruct (negb (truthy (el_get d "schemaLocation"))); [|eauto].
  destruct (dict_get schema_ns (el_get d "namespace")); eauto.
Qed.

Lemma for_each_rewrite_unknown (fragments : list Element) (ds : list Element) (d : Element) :
  In d ds ->
  truthy (el_get d "schemaLocation") = false ->
  (forall g, In g fragments -> el_get g "targetNamespace" <> el_get d "namespace") ->
  exists ns, for_each (rewrite_import (schema_ns_loop 0 fragments [])) ds = Raise (KeyError ns).
Proof.
  intros Hin Hloc Hunknown. induction ds as [|d0 ds IH]; [destruct Hin|].
  simpl. destruct (rewrite_import_cases (schema_ns_loop 0 fragments []) d0) as [[d' Hd']|Hd'].
  - rewrite Hd'. simpl. destruct Hin as [->|Hin].
    + rewrite (rewrite_import_unknown _ _ Hloc Hunknown) in Hd'. discriminate.
    + destruct (IH Hin) as [ns ->]. simpl. eauto.
  - rewrite Hd'. simpl. eauto.
Qed.

Lemma container_loop_stitched (all : list Element) (i : nat) (fragments : list Element)
    (container : list Element) :
  (forall f, In f fragments -> In f all) ->
  imports_closed all ->
  container_loop (schema_ns_loop 0 all []) i fragments container =
    Ok (container ++ stitched_body_from all i fragments).
Proof.
  intros Hsub Hclosed. revert i container.
  induction fragments as [|f rest IH]; intros i container; simpl.
  - now rewrite app_nil_r.
  - rewrite (for_each_map _ (stitched_import all)).
    + simpl. rewrite IH.
      * f_equal. rewrite <- !app_assoc. reflexivity.
      * intros g Hg. apply Hsub. now right.
    + intros d Hd. apply rewrite_import_stitched. intros Hloc.
      apply (Hclosed f d); auto. apply Hsub. now left.
Qed.

Lemma container_loop_unknown (all : list Element) (i : nat) (fragments : list Element)
    (container : list Element) (f d : Element) :
  In f fragments ->
  In d (findall f import_tag) ->
  truthy (el_get d "schemaLocation") = false ->
  (forall g, In g all -> el_get g "targetNamespace" <> el_get d "namespace") ->
  exists ns, container_loop (schema_ns_loop 0 all []) i fragments container
             = Raise (KeyError ns).
Proof.
  intros Hf Hd Hloc Hunknown. revert i container.
  induction fragments as [|f0 rest IH]; intros i container; [destruct Hf|].
  simpl.
  destruct (for_each (rewrite_import (schema_ns_loop 0 all [])) (findall f0 import_tag))
    as [copies|e] eqn:Hcopies; simpl.
  - destruct Hf as [->|Hf].
    + destruct (for_each_rewrite_unknown all _ d Hd Hloc Hunknown) as [ns Hns].
      congruence.
    + now apply IH.
  - assert (He : exists ns, e = KeyError ns).
    { clear -Hcopies. revert Hcopies. generalize (findall f0 import_tag).
      intros ds. revert e. induction ds as [|d0 ds IHd]; simpl; intros e; [discriminate|].
      destruct (rewrite_import_cases (schema_ns_loop 0 all []) d0) as [[d' Hd']|Hd'];
        rewrite Hd'; simpl.
      - destruct (for_each _ ds) as [ys|e'] eqn:Hds; simpl; try discriminate.
        intros [= <-]. now apply IHd.
      - intros [= <-]. eauto. }
    destruct He as [ns ->]. eauto.
Qed.

Lemma stitched_body_from_directive (all : list Element) (i : nat)
    (fragments : list Element) (f d : Element) :
  In f fragments -> In d (findall f import_tag) ->
  In (stitched_import all d) (stitched_body_from all i fragments).
Proof.
  revert i. induction fragments as [|f0 rest IH]; intros i; [intros []|].
  intros [->|Hf] Hd; simpl; right; apply in_or_app.
  - left. now apply in_map.
  - right. now apply IH.
Qed.


(** C10.  With two or more fragments, an import directive without a location
    whose namespace is the target namespace of no fragment makes
    [parse_types] fail with the [KeyError] of the unguarded lookup. *)
Theorem parse_types_unknown_namespace (w : Document) (self_location : option string)
    (doc : Element) (fragments : list Element) (f d : Element) :
  reparse w self_location (find_schema_nodes doc) = Ok fragments ->
  2 <= length fragments ->
  In f fragments ->
  In d (findall f import_tag) ->
  truthy (el_get d "schemaLocation") = false ->
  (forall g, In g fragments -> el_get g "targetNamespace" <> el_get d "namespace") ->
  exists ns, parse_types w self_location doc = Raise (KeyError ns).
Proof.
  intros Hre Hlen Hf Hd Hloc Hunknown. unfold parse_types.
  destruct (find_schema_nodes doc) as [|n ns] eqn:Hnodes.
  - simpl in Hre. injection Hre as <-. destruct Hf.
  - rewrite Hre. simpl.
    destruct fragments as [|f1 [|f2 rest]]; simpl in Hlen; try lia.
    destruct (container_loop_unknown (f1 :: f2 :: rest) 0 (f1 :: f2 :: rest) [] f d
                Hf Hd Hloc Hunknown) as [k Hk].
    rewrite Hk. simpl. eauto.
Qed.

End TypesProperties.

(** ** Construction: [Definition.__init__] and [parse_imports] *)

Section InitProperties.
Context `{Collaborators}.
#[local] Set Warnings "-clear-no-such-hyp".

Lemma update_heap (self : ref) f (w : Document) :
  heap (update self f w) = alter f self (heap w).
Proof. reflexivity. Qed.

Lemma update_length (self : ref) f (w : Document) :
  length (heap (update self f w)) = length (heap w).
Proof. apply length_alter. Qed.

Lemma update_lookup_ne (self r : ref) f (w : Document) :
  self <> r -> heap (update self f w) !! r = heap w !! r.
Proof. intros. now apply list_lookup_alter_ne. Qed.

Lemma update_lookup_eq (self : ref) f (w : Document) :
  heap (update self f w) !! self = f <$> heap w !! self.
Proof. apply list_lookup_alter_eq. Qed.

Lemma update_parsed_namespaces (self : ref) f (w : Document) :
  (forall d, target_namespace (f d) = target_namespace d) ->
  parsed_namespaces (update self f w) = parsed_namespaces w.
Proof.
  intros Hf. unfold parsed_namespaces. rewrite update_heap.
  generalize (heap w) as l. intros l. revert self.
  induction l as [|d l IH]; intros [|self]; simpl; try reflexivity.
  - now rewrite Hf.
  - f_equal. apply IH.
Qed.

Lemma result_sat_bind {A B} (partial : bool) (Q : A -> Prop) (Q' : B -> Prop)
    (m : Result A) (f : A -> Result B) :
  result_sat partial Q m ->
  (forall a, Q a -> result_sat partial Q' (f a)) ->
  result_sat partial Q' (m ≫= f).
Proof. destruct m as [[a|e]|]; simpl; auto. Qed.

(** The loop of [parse_imports] keeps an invariant [I] of the document that
    the constructor keeps and that does not depend on the [imports] and
    [schema] fields. *)
Lemma parse_imports_loop_sat (partial : bool) (I : Document -> Prop)
    (R : Element -> Prop)
    (init : Document -> Element -> option string -> Result (Document * ref))
    (self : ref) (self_location : option string) :
  (forall w f, I w -> (forall d, target_namespace (f d) = target_namespace d) ->
     I (update self f w)) ->
  (forall w node document, I w -> R node ->
     _definitions w !! el_get node "namespace" = None ->
     load_external (el_get node "location") (doc_location w) = Ok document ->
     String.eqb (localname (tag document)) "schema" = false ->
     result_sat partial (fun r => I (fst r))
       (init w document (absolute_location (el_get node "location") self_location))) ->
  forall nodes w, I w -> Forall R nodes ->
    result_sat partial I (parse_imports_loop init self self_location w nodes).
Proof.
  intros Hupd Hinit nodes. induction nodes as [|node nodes IH]; intros w HI HR.
  - exact HI.
  - inversion HR as [|? ? Hnode Hnodes]; subst. simpl.
    apply (result_sat_bind partial I I); [|intros w' HI'; now apply IH].
    unfold parse_import.
    destruct (_definitions w !! el_get node "namespace") as [r|] eqn:Hreg.
    + simpl. now apply Hupd.
    + unfold _load_content.
      destruct (load_external (el_get node "location") (doc_location w))
        as [document|e] eqn:Hload; simpl; [|exact Logic.I].
      destruct (String.eqb (localname (tag document)) "schema") eqn:Hschema.
      * simpl. now apply Hupd.
      * apply (result_sat_bind partial (fun r => I (fst r)) I).
        -- now apply (Hinit w node document).
        -- intros [w' r] HI'. simpl in *. now apply Hupd.
Qed.

Lemma parse_types_frame (w w' : Document) (loc : option string) (doc : Element)
    (s : option Schema) :
  parse_types w loc doc = Ok (w', s) ->
  heap w' = heap w /\ _definitions w' = _definitions w /\ doc_location w' = doc_location w.
Proof.
  unfold parse_types. destruct (find_schema_nodes doc) as [|n ns].
  - now intros [= <- <-].
  - destruct (reparse w loc (n :: ns)) as [[|f1 [|f2 rest]]|e];
      cbn [mbind Outcome_bind]; try discriminate.
    + cbn. now intros [= <- <-].
    + now intros [= <- <-].
    + destruct (container_loop _ 0 (f1 :: f2 :: rest) []);
        cbn [mbind Outcome_bind]; try discriminate.
      now intros [= <- <-].
Qed.

(** What the statements after [parse_imports] leave of the document. *)
Lemma parse_local_frame (w w' : Document) (self : ref) (loc : option string)
    (doc : Element) :
  parse_local w self loc doc = Ok w' ->
  doc_location w' = doc_location w /\
  _definitions w' = _definitions w /\
  parsed_namespaces w' = parsed_namespaces w /\
  length (heap w') = length (heap w) /\
  (forall r, r <> self -> heap w' !! r = heap w !! r) /\
  (forall d, heap w !! self = Some d ->
     exists d' w1 w2,
       heap w' !! self = Some d' /\
       parse_types w1 loc doc = Ok (w2, schema d') /\
       imports d' = imports d /\
       target_namespace d' = target_namespace d /\
       location d' = location d /\
       _resolved_imports d' = _resolved_imports d).
Proof.
  unfold parse_local.
  destruct (parse_types w loc doc) as [[w2 sch]|e] eqn:Htypes; simpl; [|discriminate].
  destruct (parse_types_frame _ _ _ _ _ Htypes) as (Hheap & Hdefs & Hloc).
  destruct (parse_messages _ self doc) as [msgs|e]; simpl; [|discriminate].
  destruct (parse_ports _ self doc) as [pts|e]; simpl; [|discriminate].
  destruct (parse_binding _ self doc) as [bds|e]; simpl; [|discriminate].
  destruct (parse_service _ self doc) as [svs|e]; simpl; [|discriminate].
  intros [= <-]. repeat split.
  - exact Hloc.
  - exact Hdefs.
  - rewrite !update_parsed_namespaces by reflexivity.
    unfold parsed_namespaces. now rewrite Hheap.
  - rewrite !update_length. now rewrite Hheap.
  - intros r Hr. rewrite !update_lookup_ne by auto. now rewrite Hheap.
  - intros d Hd. rewrite !update_lookup_eq, Hheap, Hd. simpl.
    eexists _, w, w2. split; [reflexivity|]. simpl. now split.
Qed.

Lemma result_sat_mono {A} (partial : bool) (Q Q' : A -> Prop) (r : Result A) :
  (forall a, Q a -> Q' a) -> result_sat partial Q r -> result_sat partial Q' r.
Proof. destruct r as [[a|e]|]; simpl; auto. Qed.

Lemma Definition_init_S (fuel : nat) (w : Document) (doc : Element) (loc : option string) :
  Definition_init (S fuel) w doc loc =
    (w1 ← parse_imports (Definition_init fuel) (length (heap w)) loc
            (registered w doc loc) doc;
     w2 ← Done (parse_local w1 (length (heap w)) loc doc);
     mret (w2, length (heap w))).
Proof. reflexivity. Qed.

Lemma registered_lookup (w : Document) (doc : Element) (loc : option string) :
  _definitions (registered w doc loc) !! el_get doc "targetNamespace"
    = Some (length (heap w)) /\
  heap (registered w doc loc) !! length (heap w) = Some (new_definition loc doc).
Proof.
  split; simpl.
  - apply lookup_insert_eq.
  - rewrite lookup_app_r by lia. now rewrite Nat.sub_diag.
Qed.

(** The constructor returns the next free reference, and the schema of the
    new instance is what [parse_types] returned for its document. *)
Lemma Definition_init_schema (fuel : nat) (w : Document) (doc : Element)
    (loc : option string) :
  result_sat true
    (fun r => snd r = length (heap w) /\
       exists d w1 w2, heap (fst r) !! snd r = Some d /\
         parse_types w1 loc doc = Ok (w2, schema d))
    (Definition_init fuel w doc loc).
Proof.
  revert w doc loc. induction fuel as [|fuel IH]; intros w doc loc; [reflexivity|].
  rewrite Definition_init_S.
  apply (result_sat_bind true
           (fun w1 => length (heap (registered w doc loc)) <= length (heap w1))).
  - apply (parse_imports_loop_sat true _ (fun _ => True)).
    + intros w1 f Hlen _. now rewrite update_length.
    + intros w1 node document Hlen _ _ _ _.
      eapply result_sat_mono; [|apply IH].
      intros [w2 r] [Hr (d & _ & _ & Hd & _)]. simpl in *.
      apply lookup_lt_Some in Hd. lia.
    + lia.
    + apply Forall_forall. auto.
  - intros w1 Hlen.
    destruct (parse_local w1 (length (heap w)) loc doc) as [w2|e] eqn:Hlocal;
      simpl; [|exact Logic.I].
    split; [reflexivity|].
    simpl in Hlen. rewrite length_app in Hlen. simpl in Hlen.
    destruct (lookup_lt_is_Some_2 (heap w1) (length (heap w))) as [d Hd]; [lia|].
    destruct (parse_local_frame _ _ _ _ _ Hlocal) as (_ & _ & _ & _ & _ & Hself).
    destruct (Hself d Hd) as (d' & wa & wb & Hd' & Htypes & _).
    eauto.
Qed.

(** Whatever [parse_imports] assigned to [self.schema], a document without
    schema nodes leaves the new definition without a schema. *)
Lemma Definition_init_schema_without_types (fuel : nat) (w : Document) (doc : Element)
    (loc : option string) :
  find_schema_nodes doc = [] ->
  result_sat true (fun r => schema <$> heap (fst r) !! snd r = Some None)
    (Definition_init fuel w doc loc).
Proof.
  intros Hnil. eapply result_sat_mono; [|apply Definition_init_schema].
  intros [w' self] (_ & d & w1 & w2 & Hd & Htypes). simpl in *.
  unfold parse_types in Htypes. rewrite Hnil in Htypes.
  injection Htypes as _ Hschema. rewrite Hd. simpl. now rewrite <- Hschema.
Qed.

Section Termination.
Variable base : option string.
Variable U : gset (option string).
Hypothesis Hloader : loader_well_formed base U.

#[local] Abbreviation init_inv := (init_inv base U).

Lemma init_inv_update (self : ref) f (w : Document) :
  (forall d, target_namespace (f d) = target_namespace d) ->
  init_inv w -> init_inv (update self f w).
Proof.
  intros Hf (Hloc & [Hnd Hreg] & HU). repeat split; auto.
  - now rewrite update_parsed_namespaces.
  - rewrite update_parsed_namespaces by exact Hf. apply Hreg.
  - rewrite update_parsed_namespaces by exact Hf. apply Hreg.
Qed.

Lemma init_inv_registered (w : Document) (doc : Element) (loc : option string) :
  init_inv w ->
  el_get doc "targetNamespace" ∈ U ->
  el_get doc "targetNamespace" ∉ dom (_definitions w) ->
  init_inv (registered w doc loc) /\
  dom (_definitions (registered w doc loc))
    = {[el_get doc "targetNamespace"]} ∪ dom (_definitions w).
Proof.
  intros (Hloc & [Hnd Hreg] & HU) HinU Hfresh.
  assert (Hdom : dom (_definitions (registered w doc loc))
                 = {[el_get doc "targetNamespace"]} ∪ dom (_definitions w)).
  { simpl. apply dom_insert_L. }
  assert (Hparsed : parsed_namespaces (registered w doc loc)
                    = parsed_namespaces w ++ [el_get doc "targetNamespace"]).
  { unfold parsed_namespaces. simpl. now rewrite map_app. }
  split; [|exact Hdom]. repeat split.
  - exact Hloc.
  - rewrite Hparsed. apply NoDup_app. repeat split; [exact Hnd| |].
    + intros ns Hns Hin. apply list_elem_of_singleton in Hin as ->.
      apply Hfresh, Hreg, Hns.
    + apply NoDup_singleton.
  - rewrite Hparsed, Hdom. rewrite elem_of_app, list_elem_of_singleton.
    rewrite Hreg. set_solver.
  - rewrite Hparsed, Hdom. rewrite elem_of_app, list_elem_of_singleton.
    rewrite Hreg. set_solver.
  - rewrite Hdom. set_solver.
Qed.

(** The constructor returns when the fuel covers the namespaces of [U] that
    are not registered yet, and it keeps registry and store in agreement. *)
Lemma Definition_init_terminates (fuel : nat) (w : Document) (doc : Element)
    (loc : option string) :
  init_inv w ->
  el_get doc "targetNamespace" ∈ U ->
  el_get doc "targetNamespace" ∉ dom (_definitions w) ->
  declares_true_namespaces base doc ->
  size (U ∖ dom (_definitions w)) <= fuel ->
  result_sat false
    (fun r => init_inv (fst r) /\
       {[el_get doc "targetNamespace"]} ∪ dom (_definitions w)
         ⊆ dom (_definitions (fst r)))
    (Definition_init fuel w doc loc).
Proof.
  revert w doc loc. induction fuel as [|fuel IH]; intros w doc loc Hinv HinU Hfresh Htrue Hsize.
  - exfalso.
    assert (Hpos : size (U ∖ dom (_definitions w)) <> 0).
    { intros Hz. apply size_empty_inv in Hz.
      assert (Hel : el_get doc "targetNamespace" ∈ U ∖ dom (_definitions w))
        by (apply elem_of_difference; now split).
      rewrite Hz in Hel. now apply not_elem_of_empty in Hel. }
    lia.
  - rewrite Definition_init_S.
    destruct (init_inv_registered w doc loc Hinv HinU Hfresh) as [Hinv1 Hdom1].
    set (w1 := registered w doc loc) in *.
    set (I := fun w' : Document =>
                init_inv w' /\ dom (_definitions w1) ⊆ dom (_definitions w') /\
                size (U ∖ dom (_definitions w')) <= fuel).
    assert (Hsize1 : size (U ∖ dom (_definitions w1)) <= fuel).
    { assert (Hlt : size (U ∖ dom (_definitions w1)) < size (U ∖ dom (_definitions w))).
      { apply subset_size. rewrite Hdom1. split; [set_solver|].
        intros Hsub. specialize (Hsub (el_get doc "targetNamespace")). set_solver. }
      lia. }
    apply (result_sat_bind false I).
    + apply (parse_imports_loop_sat false I (names_true_namespace base)).
      * intros w' f (Hi & Hd & Hs) Hf. split; [now apply init_inv_update|]. now split.
      * intros w' node document (Hi & Hd & Hs) Hnode Hreg Hload Hschema.
        destruct Hi as (Hloc' & Hri' & HU').
        rewrite Hloc' in Hload.
        destruct (Hloader _ _ Hload Hschema) as [HinU' Htrue'].
        assert (Hns : el_get document "targetNamespace" = el_get node "namespace")
          by now apply Hnode.
        assert (Hfresh' : el_get document "targetNamespace" ∉ dom (_definitions w'))
          by (rewrite Hns; now apply not_elem_of_dom).
        assert (Hinv' : init_inv w') by (split; [|split]; assumption).
        eapply result_sat_mono; [|exact (IH w' document _ Hinv' HinU' Hfresh' Htrue' Hs)].
        intros [w2 r] [Hi2 Hd2]. simpl in *. split; [exact Hi2|]. split.
        -- etransitivity; [exact Hd|]. etransitivity; [|exact Hd2].
           apply union_subseteq_r.
        -- etransitivity; [|exact Hs]. apply subseteq_size.
           apply difference_mono_l. etransitivity; [|exact Hd2].
           apply union_subseteq_r.
      * split; [exact Hinv1|]. split; [reflexivity|exact Hsize1].
      * apply Forall_forall. intros node Hnode document Hload Hschema.
        apply (Htrue node document); auto. now apply list_elem_of_In.
    + intros w2 (Hi2 & Hd2 & _).
      destruct (parse_local w2 (length (heap w)) loc doc) as [w3|e] eqn:Hlocal;
        simpl; [|exact Logic.I].
      destruct (parse_local_frame _ _ _ _ _ Hlocal) as (Hl & Hdefs & Hparsed & _).
      destruct Hi2 as (Hloc2 & [Hnd2 Hreg2] & HU2). repeat split.
      * congruence.
      * now rewrite Hparsed.
      * rewrite Hparsed, Hdefs. apply Hreg2.
      * rewrite Hparsed, Hdefs. apply Hreg2.
      * now rewrite Hdefs.
      * rewrite Hdefs. rewrite <- Hdom1. exact Hd2.
Qed.

End Termination.

End InitProperties.

(** ** Resolution: [Definition.resolve_imports] *)

Section ResolveProperties.
Context `{Collaborators}.

Lemma keeps_resolved_refl (w : Document) : keeps_resolved w w.
Proof. intros r d Hd. eauto. Qed.

Lemma keeps_resolved_trans (w1 w2 w3 : Document) :
  keeps_resolved w1 w2 -> keeps_resolved w2 w3 -> keeps_resolved w1 w3.
Proof.
  intros H12 H23 r d Hd.
  destruct (H12 r d Hd) as (d2 & Hd2 & Hf2).
  destruct (H23 r d2 Hd2) as (d3 & Hd3 & Hf3). eauto.
Qed.

Lemma keeps_resolved_update (self : ref) f (w : Document) :
  (forall d, _resolved_imports d = true -> _resolved_imports (f d) = true) ->
  keeps_resolved w (update self f w).
Proof.
  intros Hf r d Hd. destruct (decide (self = r)) as [->|Hne].
  - exists (f d). split; [|now apply Hf].
    rewrite update_lookup_eq, Hd. reflexivity.
  - exists d. split; [|auto]. now rewrite update_lookup_ne by exact Hne.
Qed.

Lemma flags_update (self : ref) f (w : Document) :
  (forall d, _resolved_imports (f d) = _resolved_imports d) ->
  flags (update self f w) = flags w.
Proof.
  intros Hf. unfold flags. rewrite update_heap.
  generalize (heap w) as l. intros l. revert self.
  induction l as [|d l IH]; intros [|self]; simpl; try reflexivity.
  - now rewrite Hf.
  - f_equal. apply IH.
Qed.

Lemma flags_update_true (self : ref) (w : Document) :
  flags (update self (set_resolved_imports true) w) = <[self := true]> (flags w).
Proof.
  unfold flags. rewrite update_heap.
  generalize (heap w) as l. intros l. revert self.
  induction l as [|d l IH]; intros [|self]; simpl; try reflexivity.
  f_equal. apply IH.
Qed.

Lemma count_false_insert_true (l : list bool) (i : nat) :
  l !! i = Some false -> S (count_false (<[i := true]> l)) = count_false l.
Proof.
  revert i. induction l as [|b l IH]; intros [|i]; simpl; try discriminate.
  - intros [= ->]. reflexivity.
  - intros Hi. unfold count_false in *. simpl.
    destruct b; simpl; [now apply IH|]. f_equal. now apply IH.
Qed.

(** The loops that work on the tables and the schema leave the flags. *)
Lemma adopt_schema_loop_flags (w w' : Document) (self : ref) (rs : list ref) :
  adopt_schema_loop w self rs = Ok w' -> flags w' = flags w.
Proof.
  revert w. induction rs as [|r rs IH]; intros w; simpl.
  - now intros [= <-].
  - destruct (heap w !! r) as [definition|]; [|discriminate].
    destruct (schema definition) as [s|]; [|apply IH].
    destruct (negb (is_empty s)); [|apply IH].
    intros Hloop. rewrite (IH _ Hloop). now apply flags_update.
Qed.

Lemma resolve_schema_flags (w w' : Document) (self : ref) (d : WsdlDefinition) :
  resolve_schema w self d = Ok w' -> flags w' = flags w.
Proof.
  unfold resolve_schema. destruct (schema d); [now intros [= <-]|].
  destruct (adopt_schema_loop w self (dict_values (imports d))) as [w1|e] eqn:Hloop;
    simpl; [|discriminate].
  intros [= <-]. rewrite flags_update by reflexivity.
  now apply (adopt_schema_loop_flags _ _ _ _ Hloop).
Qed.

Lemma resolve_table_flags (name : TableName) (w w' : Document) (self : ref)
    (items : list (string * Object)) :
  resolve_table name w self items = Ok w' -> flags w' = flags w.
Proof.
  revert w. induction items as [|[key obj] items IH]; intros w; simpl.
  - now intros [= <-].
  - destruct (resolve_object w self obj) as [obj'|e]; simpl; [|discriminate].
    intros Hloop. rewrite (IH _ Hloop). apply flags_update.
    intros d. now destruct name.
Qed.

Lemma resolve_tables_flags (w w' : Document) (self : ref) (d : WsdlDefinition) :
  resolve_tables w self d = Ok w' -> flags w' = flags w.
Proof.
  unfold resolve_tables.
  destruct (resolve_table messages_t w self (messages d)) as [w1|e] eqn:H1;
    simpl; [|discriminate].
  destruct (resolve_table port_types_t w1 self (port_types d)) as [w2|e] eqn:H2;
    simpl; [|discriminate].
  destruct (resolve_table bindings_t w2 self (bindings d)) as [w3|e] eqn:H3;
    simpl; [|discriminate].
  intros H4.
  rewrite (resolve_table_flags _ _ _ _ _ H4), (resolve_table_flags _ _ _ _ _ H3),
    (resolve_table_flags _ _ _ _ _ H2). now apply (resolve_table_flags _ _ _ _ _ H1).
Qed.

Lemma flags_keeps_resolved (w w' : Document) :
  flags w' = flags w -> keeps_resolved w w'.
Proof.
  intros Hflags r d Hd.
  assert (Hr : flags w !! r = Some (_resolved_imports d)).
  { unfold flags. rewrite list_lookup_fmap, Hd. reflexivity. }
  rewrite <- Hflags in Hr. unfold flags in Hr. rewrite list_lookup_fmap in Hr.
  destruct (heap w' !! r) as [d'|]; [|discriminate].
  injection Hr as Hr. exists d'. split; [reflexivity|]. congruence.
Qed.

Lemma resolve_definitions_sat (partial : bool) (I : Document -> Prop)
    (resolve : Document -> ref -> Result Document) :
  (forall w r, I w -> result_sat partial I (resolve w r)) ->
  forall rs w, I w -> result_sat partial I (resolve_definitions resolve w rs).
Proof.
  intros Hres rs. induction rs as [|r rs IH]; intros w HI; simpl; [exact HI|].
  apply (result_sat_bind partial I I); [now apply Hres|]. intros w' HI'. now apply IH.
Qed.

Lemma resolve_imports_S (fuel : nat) (w : Document) (self : ref) (d : WsdlDefinition) :
  heap w !! self = Some d ->
  resolve_imports (S fuel) w self =
    if _resolved_imports d then Done (Ok w)
    else
      w1 ← Done (resolve_schema (update self (set_resolved_imports true) w) self d);
      w2 ← resolve_definitions (resolve_imports fuel) w1 (dict_values (imports d));
      Done (resolve_tables w2 self d).
Proof. intros Hd. simpl. now rewrite Hd. Qed.

(** No call of [resolve_imports] turns a flag back. *)
Lemma resolve_imports_keeps (fuel : nat) (w : Document) (self : ref) :
  result_sat true (keeps_resolved w) (resolve_imports fuel w self).
Proof.
  revert w self. induction fuel as [|fuel IH]; intros w self; [reflexivity|].
  destruct (heap w !! self) as [d|] eqn:Hd; [|simpl; now rewrite Hd].
  rewrite (resolve_imports_S _ _ _ _ Hd).
  destruct (_resolved_imports d); [apply keeps_resolved_refl|].
  set (w0 := update self (set_resolved_imports true) w).
  assert (H0w : keeps_resolved w w0) by (apply keeps_resolved_update; auto).
  destruct (resolve_schema w0 self d) as [w1|e] eqn:Hschema; simpl; [|exact Logic.I].
  assert (H1 : keeps_resolved w w1).
  { eapply keeps_resolved_trans; [exact H0w|].
    apply flags_keeps_resolved. now apply (resolve_schema_flags _ _ _ _ Hschema). }
  apply (result_sat_bind true (keeps_resolved w)).
  - apply resolve_definitions_sat; [|exact H1].
    intros w' r Hw'. eapply result_sat_mono; [|apply IH].
    intros w'' Hw''. now apply (keeps_resolved_trans _ w').
  - intros w2 H2.
    destruct (resolve_tables w2 self d) as [w3|e] eqn:Htables; simpl; [|exact Logic.I].
    eapply keeps_resolved_trans; [exact H2|].
    apply flags_keeps_resolved. now apply (resolve_tables_flags _ _ _ _ Htables).
Qed.

(** C3.  A first call that returns leaves the flag of its definition set;
    the flag is tested on entry and set before the recursion into the
    imports; no call, on this or on another definition, turns a flag back;
    and every later call returns at once and leaves the document, with the
    schema and the tables of the definition, as it was. *)
Theorem resolve_imports_idempotent (fuel : nat) (w w' : Document) (self : ref) :
  resolve_imports fuel w self = Done (Ok w') ->
  (exists d', heap w' !! self = Some d' /\ _resolved_imports d' = true) /\
  keeps_resolved w w' /\
  (forall fuel' d, heap w !! self = Some d -> _resolved_imports d = false ->
     resolve_imports (S fuel') w self =
       (w1 ← Done (resolve_schema (update self (set_resolved_imports true) w) self d);
        w2 ← resolve_definitions (resolve_imports fuel') w1 (dict_values (imports d));
        Done (resolve_tables w2 self d))) /\
  (forall fuel', resolve_imports (S fuel') w' self = Done (Ok w')) /\
  (forall fuel' other w'', resolve_imports fuel' w' other = Done (Ok w'') ->
     exists d'', heap w'' !! self = Some d'' /\ _resolved_imports d'' = true).
Proof.
  intros Hcall.
  assert (Hkeeps : keeps_resolved w w').
  { pose proof (resolve_imports_keeps fuel w self) as Hk. now rewrite Hcall in Hk. }
  assert (Hflag : exists d', heap w' !! self = Some d' /\ _resolved_imports d' = true).
  { destruct fuel as [|fuel]; [discriminate|].
    destruct (heap w !! self) as [d|] eqn:Hd; [|simpl in Hcall; now rewrite Hd in Hcall].
    rewrite (resolve_imports_S _ _ _ _ Hd) in Hcall.
    destruct (_resolved_imports d) eqn:Hres.
    - injection Hcall as <-. eauto.
    - set (w0 := update self (set_resolved_imports true) w) in *.
      assert (Hset : exists d0, heap w0 !! self = Some d0 /\ _resolved_imports d0 = true).
      { unfold w0. rewrite update_lookup_eq, Hd. simpl. eauto. }
      destruct Hset as (d0 & Hd0 & Hf0).
      assert (Hk0 : keeps_resolved w0 w').
      { destruct (resolve_schema w0 self d) as [w1|e] eqn:Hschema; simpl in Hcall;
          [|discriminate].
        pose proof (flags_keeps_resolved _ _ (resolve_schema_flags _ _ _ _ Hschema)) as H1.
        pose proof (resolve_definitions_sat true (keeps_resolved w0) (resolve_imports fuel))
          as Hloop.
        specialize (Hloop (fun w' r Hw' =>
          result_sat_mono true _ _ _ (fun w'' Hw'' => keeps_resolved_trans _ w' _ Hw' Hw'')
            (resolve_imports_keeps fuel w' r))).
        specialize (Hloop (dict_values (imports d)) w1 H1).
        destruct (resolve_definitions (resolve_imports fuel) w1 (dict_values (imports d)))
          as [[w2|e]|]; simpl in Hcall; try discriminate.
        simpl in Hloop. injection Hcall as Hcall.
        eapply keeps_resolved_trans; [exact Hloop|].
        apply flags_keeps_resolved. now apply (resolve_tables_flags _ _ _ _ Hcall). }
      destruct (Hk0 self d0 Hd0) as (d' & Hd' & Hf'). eauto. }
  split; [exact Hflag|]. split; [exact Hkeeps|]. split; [|split].
  - intros fuel' d Hd Hres. rewrite (resolve_imports_S _ _ _ _ Hd). now rewrite Hres.
  - intros fuel'. destruct Hflag as (d' & Hd' & Hf').
    rewrite (resolve_imports_S _ _ _ _ Hd'). now rewrite Hf'.
  - intros fuel' other w'' Hlater. destruct Hflag as (d' & Hd' & Hf').
    pose proof (resolve_imports_keeps fuel' w' other) as Hk. rewrite Hlater in Hk.
    destruct (Hk self d' Hd') as (d'' & Hd'' & Hf''). eauto.
Qed.

(** The schema step of [resolve_imports] on a definition without a schema:
    whatever its imports hold, the definition ends with the empty schema of
    its own location. *)
Lemma resolve_schema_without_schema (w w' : Document) (self : ref) (d : WsdlDefinition) :
  heap w !! self = Some d ->
  schema d = None ->
  resolve_schema w self d = Ok w' ->
  schema <$> heap w' !! self = Some (Some (mkSchema None (location d))).
Proof.
  intros Hd Hnone. unfold resolve_schema. rewrite Hnone.
  destruct (adopt_schema_loop w self (dict_values (imports d))) as [w1|e] eqn:Hloop;
    simpl; [|discriminate].
  intros [= <-]. rewrite update_lookup_eq.
  assert (Hlen : length (heap w1) = length (heap w)).
  { pose proof (f_equal length (adopt_schema_loop_flags _ _ _ _ Hloop)) as Hl.
    unfold flags in Hl. now rewrite !length_map in Hl. }
  destruct (lookup_lt_is_Some_2 (heap w1) self) as [d1 Hd1].
  { rewrite Hlen. now apply lookup_lt_Some in Hd. }
  now rewrite Hd1.
Qed.

(** After the schema step the definition has a schema. *)
Lemma resolve_schema_not_null (w w' : Document) (self : ref) (d : WsdlDefinition) :
  heap w !! self = Some d ->
  resolve_schema w self d = Ok w' ->
  exists s, schema <$> heap w' !! self = Some (Some s).
Proof.
  intros Hd Hres. destruct (schema d) as [s|] eqn:Hs.
  - unfold resolve_schema in Hres. rewrite Hs in Hres. injection Hres as <-.
    exists s. now rewrite Hd; simpl; rewrite Hs.
  - eexists. now apply (resolve_schema_without_schema _ _ _ _ Hd Hs Hres).
Qed.

Lemma unresolved_le_length (w : Document) : unresolved w <= length (heap w).
Proof.
  unfold unresolved, count_false, flags.
  etransitivity; [apply List.filter_length_le|]. now rewrite length_map.
Qed.

(** [resolve_imports] returns when the fuel exceeds the number of
    definitions that are not resolved yet. *)
Lemma resolve_imports_terminates (fuel : nat) (w : Document) (self : ref) :
  unresolved w < fuel ->
  result_sat false (fun w' => unresolved w' <= unresolved w) (resolve_imports fuel w self).
Proof.
  revert w self. induction fuel as [|fuel IH]; intros w self Hfuel; [lia|].
  destruct (heap w !! self) as [d|] eqn:Hd; [|simpl; now rewrite Hd].
  rewrite (resolve_imports_S _ _ _ _ Hd).
  destruct (_resolved_imports d) eqn:Hres; [simpl; lia|].
  set (w0 := update self (set_resolved_imports true) w).
  assert (Hw0 : S (unresolved w0) = unresolved w).
  { unfold unresolved, w0. rewrite flags_update_true.
    apply count_false_insert_true. unfold flags.
    rewrite list_lookup_fmap, Hd. simpl. now rewrite Hres. }
  destruct (resolve_schema w0 self d) as [w1|e] eqn:Hschema; simpl; [|exact Logic.I].
  assert (Hw1 : unresolved w1 = unresolved w0).
  { unfold unresolved. now rewrite (resolve_schema_flags _ _ _ _ Hschema). }
  apply (result_sat_bind false (fun w' => unresolved w' <= unresolved w1)).
  - apply resolve_definitions_sat; [|lia].
    intros w' r Hw'. eapply result_sat_mono; [|apply IH; lia].
    simpl. intros w'' Hw''. lia.
  - intros w2 Hw2.
    destruct (resolve_tables w2 self d) as [w3|e] eqn:Htables; simpl; [|exact Logic.I].
    unfold unresolved at 1. rewrite (resolve_tables_flags _ _ _ _ Htables).
    fold (unresolved w2). lia.
Qed.

(** Resolution creates no definition and registers none. *)
Lemma same_definitions_update (self : ref) f (w w' : Document) :
  (forall d, target_namespace (f d) = target_namespace d) ->
  same_definitions w w' -> same_definitions w (update self f w').
Proof.
  intros Hf [Hdefs Hparsed]. split; [exact Hdefs|].
  now rewrite update_parsed_namespaces.
Qed.

Lemma adopt_schema_loop_same (w0 w w' : Document) (self : ref) (rs : list ref) :
  same_definitions w0 w ->
  adopt_schema_loop w self rs = Ok w' -> same_definitions w0 w'.
Proof.
  revert w. induction rs as [|r rs IH]; intros w Hsame; simpl.
  - now intros [= <-].
  - destruct (heap w !! r) as [definition|]; [|discriminate].
    destruct (schema definition) as [s|]; [|now apply IH].
    destruct (negb (is_empty s)); [|now apply IH].
    apply IH. now apply same_definitions_update.
Qed.

Lemma resolve_schema_same (w0 w w' : Document) (self : ref) (d : WsdlDefinition) :
  same_definitions w0 w ->
  resolve_schema w self d = Ok w' -> same_definitions w0 w'.
Proof.
  intros Hsame. unfold resolve_schema. destruct (schema d); [now intros [= <-]|].
  destruct (adopt_schema_loop w self (dict_values (imports d))) as [w1|e] eqn:Hloop;
    simpl; [|discriminate].
  intros [= <-]. apply same_definitions_update; [reflexivity|].
  now apply (adopt_schema_loop_same _ _ _ _ _ Hsame Hloop).
Qed.

Lemma resolve_table_same (name : TableName) (w0 w w' : Document) (self : ref)
    (items : list (string * Object)) :
  same_definitions w0 w ->
  resolve_table name w self items = Ok w' -> same_definitions w0 w'.
Proof.
  revert w. induction items as [|[key obj] items IH]; intros w Hsame; simpl.
  - now intros [= <-].
  - destruct (resolve_object w self obj) as [obj'|e]; simpl; [|discriminate].
    apply IH. apply same_definitions_update; [|exact Hsame].
    intros d. now destruct name.
Qed.

Lemma resolve_tables_same (w0 w w' : Document) (self : ref) (d : WsdlDefinition) :
  same_definitions w0 w ->
  resolve_tables w self d = Ok w' -> same_definitions w0 w'.
Proof.
  intros Hsame. unfold resolve_tables.
  destruct (resolve_table messages_t w self (messages d)) as [w1|e] eqn:E1;
    simpl; [|discriminate].
  destruct (resolve_table port_types_t w1 self (port_types d)) as [w2|e] eqn:E2;
    simpl; [|discriminate].
  destruct (resolve_table bindings_t w2 self (bindings d)) as [w3|e] eqn:E3;
    simpl; [|discriminate].
  intros E4.
  eapply resolve_table_same; [|exact E4].
  eapply resolve_table_same; [|exact E3].
  eapply resolve_table_same; [|exact E2].
  eapply resolve_table_same; [|exact E1]. exact Hsame.
Qed.

Lemma resolve_imports_same (fuel : nat) (w0 w : Document) (self : ref) :
  same_definitions w0 w ->
  result_sat true (same_definitions w0) (resolve_imports fuel w self).
Proof.
  revert w self. induction fuel as [|fuel IH]; intros w self Hsame; [reflexivity|].
  destruct (heap w !! self) as [d|] eqn:Hd; [|simpl; now rewrite Hd].
  rewrite (resolve_imports_S _ _ _ _ Hd).
  destruct (_resolved_imports d); [exact Hsame|].
  set (w1 := update self (set_resolved_imports true) w).
  assert (Hsame1 : same_definitions w0 w1)
    by (apply same_definitions_update; [reflexivity|exact Hsame]).
  destruct (resolve_schema w1 self d) as [w2|e] eqn:Hschema; simpl; [|exact Logic.I].
  apply (result_sat_bind true (same_definitions w0)).
  - apply resolve_definitions_sat.
    + intros w' r Hw'. now apply IH.
    + now apply (resolve_schema_same _ _ _ _ _ Hsame1 Hschema).
  - intros w3 Hsame3.
    destruct (resolve_tables w3 self d) as [w4|e] eqn:Htables; simpl; [|exact Logic.I].
    now apply (resolve_tables_same _ _ _ _ _ Hsame3 Htables).
Qed.

End ResolveProperties.

(** ** Construction of a document: [Document.__init__] *)

Section DocumentProperties.
Context `{Collaborators}.
#[local] Set Warnings "-clear-no-such-hyp".

Lemma loader_well_formed_mono (base : option string) (U U' : gset (option string)) :
  U ⊆ U' -> loader_well_formed base U -> loader_well_formed base U'.
Proof.
  intros Hsub Hwf location document Hload Hschema.
  destruct (Hwf location document Hload Hschema) as [HinU Htrue]. split; auto.
Qed.

Lemma init_inv_new_document (location : LocationArg) (U : gset (option string)) :
  init_inv (doc_location (new_document location)) U (new_document location).
Proof.
  repeat split; simpl.
  - apply NoDup_nil_2.
  - intros Hin. now apply elem_of_nil in Hin.
  - rewrite dom_empty_L. intros Hin. now apply not_elem_of_empty in Hin.
  - rewrite dom_empty_L. apply empty_subseteq.
Qed.

Lemma init_inv_length (base : option string) (U : gset (option string)) (w : Document) :
  init_inv base U w -> length (heap w) <= size U.
Proof.
  intros (_ & [Hnd Hreg] & HU).
  replace (length (heap w)) with (length (parsed_namespaces w))
    by (unfold parsed_namespaces; apply length_map).
  rewrite <- (size_list_to_set (C := gset (option string)) _ Hnd).
  apply subseteq_size. intros ns Hns. apply elem_of_list_to_set in Hns.
  apply HU, Hreg, Hns.
Qed.

Lemma registry_inv_times_parsed (w : Document) (ns : option string) :
  registry_inv w ->
  times_parsed w ns = if decide (ns ∈ dom (_definitions w)) then 1 else 0.
Proof.
  intros [Hnd Hreg]. unfold times_parsed.
  destruct (decide (ns ∈ dom (_definitions w))) as [Hin|Hnin].
  - apply NoDup_ListNoDup in Hnd.
    apply (proj1 (List.NoDup_count_occ' _ _) Hnd).
    apply list_elem_of_In, Hreg, Hin.
  - apply List.count_occ_not_In. intros Hin. apply Hnin, Hreg, list_elem_of_In, Hin.
Qed.


End DocumentProperties.

(** ** More on construction *)

Section BuildProperties.
Context `{Collaborators}.
#[local] Set Warnings "-clear-no-such-hyp".

(** The loop of [parse_imports] keeps an invariant [I] that the two
    assignments of its body keep: the link of a definition [r] that [L]
    admits for the declaration, and the assignment of a schema. *)
Lemma parse_imports_loop_inv (partial : bool) (I : Document -> Prop)
    (R : Element -> Prop) (L : Document -> Element -> ref -> Prop)
    (init : Document -> Element -> option string -> Result (Document * ref))
    (self : ref) (self_location : option string) :
  (forall w node r, I w -> R node -> L w node r ->
     I (update self (link (el_get node "namespace") r) w)) ->
  (forall w s, I w -> I (update self (set_schema s) w)) ->
  (forall w node r, I w -> R node ->
     _definitions w !! el_get node "namespace" = Some r -> L w node r) ->
  (forall w node document, I w -> R node ->
     _definitions w !! el_get node "namespace" = None ->
     load_external (el_get node "location") (doc_location w) = Ok document ->
     String.eqb (localname (tag document)) "schema" = false ->
     result_sat partial (fun r => I (fst r) /\ L (fst r) node (snd r))
       (init w document (absolute_location (el_get node "location") self_location))) ->
  forall nodes w, I w -> Forall R nodes ->
    result_sat partial I (parse_imports_loop init self self_location w nodes).
Proof.
  intros Hlink Hschema Hreg Hinit nodes.
  induction nodes as [|node nodes IH]; intros w HI HR; [exact HI|].
  inversion HR as [|? ? Hnode Hnodes]; subst. simpl.
  apply (result_sat_bind partial I I); [|intros w' HI'; now apply IH].
  unfold parse_import.
  destruct (_definitions w !! el_get node "namespace") as [r|] eqn:Hlookup.
  - simpl. apply Hlink; auto.
  - unfold _load_content.
    destruct (load_external (el_get node "location") (doc_location w))
      as [document|e] eqn:Hload; simpl; [|exact Logic.I].
    destruct (String.eqb (localname (tag document)) "schema") eqn:Hs.
    + simpl. now apply Hschema.
    + apply (result_sat_bind partial (fun r => I (fst r) /\ L (fst r) node (snd r)) I).
      * now apply (Hinit w node document).
      * intros [w' r] [HI' HL]. simpl in *. now apply Hlink.
Qed.

(** The statements after [parse_imports] change the new instance only, and
    of it the schema and the tables. *)
Lemma parse_local_heap (w w' : Document) (self : ref) (loc : option string)
    (doc : Element) :
  parse_local w self loc doc = Ok w' ->
  doc_location w' = doc_location w /\
  _definitions w' = _definitions w /\
  exists f, heap w' = alter f self (heap w) /\
    forall d, target_namespace (f d) = target_namespace d /\
      location (f d) = location d /\
      _resolved_imports (f d) = _resolved_imports d /\
      imports (f d) = imports d.
Proof.
  unfold parse_local.
  destruct (parse_types w loc doc) as [[w2 sch]|e] eqn:Htypes; simpl; [|discriminate].
  destruct (parse_types_frame _ _ _ _ _ Htypes) as (Hheap & Hdefs & Hloc).
  destruct (parse_messages _ self doc) as [msgs|e]; simpl; [|discriminate].
  destruct (parse_ports _ self doc) as [pts|e]; simpl; [|discriminate].
  destruct (parse_binding _ self doc) as [bds|e]; simpl; [|discriminate].
  destruct (parse_service _ self doc) as [svs|e]; simpl; [|discriminate].
  intros [= <-]. split; [exact Hloc|]. split; [exact Hdefs|].
  exists (set_services svs ∘ set_bindings bds ∘ set_port_types pts ∘ set_messages msgs
            ∘ set_schema sch).
  split; [|intros d; simpl; auto].
  rewrite !update_heap. simpl. rewrite Hheap. now rewrite !list_alter_alter_eq.
Qed.

Lemma under_construction_update (w0 w : Document) (doc : Element) (loc : option string) f :
  (forall d, target_namespace (f d) = target_namespace d /\
     location (f d) = location d /\
     _resolved_imports (f d) = _resolved_imports d /\
     forall ns, In ns (dict_keys (imports (f d))) ->
       In ns (dict_keys (imports d)) \/ In ns (declared_namespaces doc)) ->
  under_construction w0 doc loc w ->
  under_construction w0 doc loc (update (length (heap w0)) f w).
Proof.
  intros Hf (Hloc & Htake & Hdrop & (d & Hd & Htns & Hl & Hkeys) & Hreg).
  split; [exact Hloc|]. split; [|split; [|split]].
  - rewrite update_heap, take_alter_ge by lia. exact Htake.
  - rewrite update_heap, drop_alter_ge by lia.
    apply Forall_alter; [exact Hdrop|]. intros x _ Hx.
    destruct (Hf x) as (_ & _ & -> & _). exact Hx.
  - exists (f d). rewrite update_lookup_eq, Hd. split; [reflexivity|].
    destruct (Hf d) as (-> & -> & _ & Hk). repeat split; auto.
    intros ns Hns. destruct (Hk ns Hns); auto.
  - intros Hreg0 ns r Hr. simpl in Hr.
    destruct (Hreg Hreg0 ns r Hr) as (dr & Hdr & Hns).
    destruct (decide (length (heap w0) = r)) as [<-|Hne].
    + exists (f dr). rewrite update_lookup_eq, Hdr. split; [reflexivity|].
      destruct (Hf dr) as (-> & _). exact Hns.
    + exists dr. now rewrite update_lookup_ne.
Qed.

Lemma under_construction_registered (w0 : Document) (doc : Element) (loc : option string) :
  under_construction w0 doc loc (registered w0 doc loc).
Proof.
  split; [reflexivity|]. split; [|split; [|split]]; simpl.
  - now rewrite take_app_length.
  - rewrite drop_app_length. now repeat constructor.
  - exists (new_definition loc doc). split.
    + rewrite lookup_app_r by lia. now rewrite Nat.sub_diag.
    + repeat split. intros ns [].
  - intros Hreg0 ns r Hr. unfold registered, set_definitions in Hr.
    cbn [_definitions] in Hr.
    destruct (decide (el_get doc "targetNamespace" = ns)) as [<-|Hne].
    + rewrite lookup_insert_eq in Hr. injection Hr as <-.
      exists (new_definition loc doc). split; [|reflexivity]. simpl.
      rewrite lookup_app_r by lia. now rewrite Nat.sub_diag.
    + rewrite lookup_insert_ne in Hr by exact Hne.
      destruct (Hreg0 ns r Hr) as (dr & Hdr & Hns). exists dr. split; [|exact Hns].
      simpl. now apply lookup_app_l_Some.
Qed.

Lemma under_construction_nested (w0 w w' : Document) (doc document : Element)
    (loc loc' : option string) (r : ref) :
  under_construction w0 doc loc w ->
  built w document loc' w' r ->
  under_construction w0 doc loc w'.
Proof.
  intros (Hloc & Htake & Hdrop & (d & Hd & Hfields) & Hreg)
         (_ & Hloc' & Htake' & Hdrop' & _ & Hreg').
  assert (Hlt : length (heap w0) < length (heap w)) by now apply lookup_lt_Some in Hd.
  assert (Hheap : heap w' = heap w ++ drop (length (heap w)) (heap w')).
  { rewrite <- Htake' at 1. now rewrite take_drop. }
  split; [congruence|]. split; [|split; [|split]].
  - rewrite Hheap, take_app_le by lia. exact Htake.
  - rewrite Hheap, drop_app_le by lia. apply Forall_app. now split.
  - exists d. split; [|exact Hfields]. rewrite Hheap. now apply lookup_app_l_Some.
  - auto.
Qed.

(** What every constructor call that returns has done. *)
Lemma Definition_init_builds (fuel : nat) (w : Document) (doc : Element)
    (loc : option string) :
  result_sat true (fun r => built w doc loc (fst r) (snd r))
    (Definition_init fuel w doc loc).
Proof.
  revert w doc loc. induction fuel as [|fuel IH]; intros w doc loc; [reflexivity|].
  rewrite Definition_init_S.
  apply (result_sat_bind true (under_construction w doc loc)).
  - apply (parse_imports_loop_inv true _
             (fun node => In node (findall doc (wsdl "import")))
             (fun _ _ _ => True)).
    + intros w1 node r Hw1 Hnode _. apply under_construction_update; [|exact Hw1].
      intros d. unfold link. simpl. repeat split.
      intros ns Hns. change (map fst ?x) with (dict_keys x) in Hns.
      rewrite dict_keys_set in Hns.
      destruct (dict_contains (imports d) (el_get node "namespace")); [now left|].
      apply in_app_or in Hns as [Hns|[<-|[]]]; [now left|right].
      unfold declared_namespaces.
      now apply (in_map (fun import_node => el_get import_node "namespace")).
    + intros w1 s Hw1. apply under_construction_update; [|exact Hw1].
      intros d. simpl. repeat split. intros ns Hns. now left.
    + auto.
    + intros w1 node document Hw1 _ _ _ _.
      eapply result_sat_mono; [|apply IH].
      intros [w2 r] Hbuilt. simpl in *. split; [|exact Logic.I].
      now apply (under_construction_nested _ _ _ _ _ _ _ _ Hw1 Hbuilt).
    + apply under_construction_registered.
    + apply List.Forall_forall. auto.
  - intros w1 Hw1.
    destruct (parse_local w1 (length (heap w)) loc doc) as [w2|e] eqn:Hlocal;
      simpl; [|exact Logic.I].
    destruct (parse_local_heap _ _ _ _ _ Hlocal) as (Hl & Hdefs & f & Hheap & Hf).
    assert (Hw2 : under_construction w doc loc w2).
    { pose proof (under_construction_update w w1 doc loc f) as Hupd.
      assert (Hpre : forall d, target_namespace (f d) = target_namespace d /\
                       location (f d) = location d /\
                       _resolved_imports (f d) = _resolved_imports d /\
                       forall ns, In ns (dict_keys (imports (f d))) ->
                         In ns (dict_keys (imports d)) \/ In ns (declared_namespaces doc)).
      { intros d. destruct (Hf d) as (Ha & Hb & Hc & Hd). repeat split; auto.
        intros ns Hns. rewrite Hd in Hns. now left. }
      specialize (Hupd Hpre Hw1).
      destruct Hupd as (U1 & U2 & U3 & U4 & U5).
      rewrite update_heap, <- Hheap in U2, U3, U4. simpl in U1.
      split; [congruence|]. split; [exact U2|]. split; [exact U3|]. split; [exact U4|].
      intros Hreg0 ns r Hr. rewrite Hdefs in Hr.
      destruct (U5 Hreg0 ns r Hr) as (dr & Hdr & Hns).
      rewrite update_heap, <- Hheap in Hdr. eauto. }
    destruct Hw2 as (V1 & V2 & V3 & V4 & V5). repeat split; auto.
Qed.

Lemma result_sat_and {A} (partial : bool) (Q Q' : A -> Prop) (r : Result A) :
  result_sat partial Q r -> result_sat partial Q' r ->
  result_sat partial (fun a => Q a /\ Q' a) r.
Proof. destruct r as [[a|e]|]; simpl; auto. Qed.

Lemma built_lookup (w w' : Document) (doc : Element) (loc : option string) (self : ref) :
  built w doc loc w' self ->
  length (heap w) < length (heap w') /\
  forall r d, heap w !! r = Some d -> heap w' !! r = Some d.
Proof.
  intros (-> & _ & Htake & _ & (d & Hd & _) & _). split.
  - now apply lookup_lt_Some in Hd.
  - intros r dr Hr. rewrite <- Htake in Hr.
    apply lookup_take_Some in Hr. apply Hr.
Qed.

(** X2.  A constructor call that returns has stored its instance at the next
    free reference and has changed no definition that existed before; it
    has not changed the location of the document; and no definition it
    created is resolved. *)
Theorem constructor_leaves_existing_definitions (fuel : nat) (w w' : Document)
    (doc : Element) (loc : option string) (self : ref) :
  Definition_init fuel w doc loc = Done (Ok (w', self)) ->
  self = length (heap w) /\
  doc_location w' = doc_location w /\
  (forall r d, heap w !! r = Some d -> heap w' !! r = Some d) /\
  (forall r d, length (heap w) <= r -> heap w' !! r = Some d ->
     _resolved_imports d = false).
Proof.
  intros Hinit. pose proof (Definition_init_builds fuel w doc loc) as Hb.
  rewrite Hinit in Hb. simpl in Hb.
  destruct (built_lookup _ _ _ _ _ Hb) as [_ Hold].
  destruct Hb as (Hself & Hloc & _ & Hdrop & _).
  repeat split; auto.
  intros r d Hle Hr.
  rewrite List.Forall_forall in Hdrop. apply Hdrop.
  apply list_elem_of_In, list_elem_of_lookup. exists (r - length (heap w)).
  rewrite lookup_drop. now replace (length (heap w) + (r - length (heap w))) with r by lia.
Qed.

(** X3.  The definition a constructor call returns has the target namespace
    of its document and the location it was given, and it imports only
    namespaces that the import declarations of its document name. *)
Theorem constructor_result (fuel : nat) (w w' : Document) (doc : Element)
    (loc : option string) (self : ref) :
  Definition_init fuel w doc loc = Done (Ok (w', self)) ->
  exists d, heap w' !! self = Some d /\
    target_namespace d = el_get doc "targetNamespace" /\
    location d = loc /\
    forall ns, In ns (dict_keys (imports d)) -> In ns (declared_namespaces doc).
Proof.
  intros Hinit. pose proof (Definition_init_builds fuel w doc loc) as Hb.
  rewrite Hinit in Hb. simpl in Hb. apply Hb.
Qed.

(** X4.  The registry stays typed: when every entry of the registry is a
    definition of the namespace it is registered under, it is so after a
    constructor call, whatever the import declarations say. *)
Theorem registry_stays_typed (fuel : nat) (w w' : Document) (doc : Element)
    (loc : option string) (self : ref) :
  registry_typed w ->
  Definition_init fuel w doc loc = Done (Ok (w', self)) ->
  registry_typed w'.
Proof.
  intros Hreg Hinit. pose proof (Definition_init_builds fuel w doc loc) as Hb.
  rewrite Hinit in Hb. simpl in Hb. now apply Hb.
Qed.

Lemma dict_values_set_in {K V} `{EqDecision K} (t : dict K V) (k : K) (v x : V) :
  In x (dict_values (dict_set t k v)) -> x = v \/ In x (dict_values t).
Proof.
  induction t as [|[k0 v0] t IH]; simpl.
  - intros [<-|[]]. now left.
  - destruct (decide (k0 = k)); simpl.
    + intros [<-|Hin]; [now left|right; now right].
    + intros [<-|Hin]; [right; now left|].
      destruct (IH Hin); [now left|right; now right].
Qed.

Lemma direct_imports_update (self r : ref) f (w : Document) :
  direct_imports (update self f w) r =
    if decide (self = r)
    then match heap w !! r with
         | Some d => dict_values (imports (f d))
         | None => []
         end
    else direct_imports w r.
Proof.
  unfold direct_imports. destruct (decide (self = r)) as [<-|Hne].
  - rewrite update_lookup_eq. now destruct (heap w !! self).
  - now rewrite update_lookup_ne.
Qed.

Lemma links_valid_update (self : ref) f (w : Document) :
  (forall d r', In r' (dict_values (imports (f d))) ->
     In r' (dict_values (imports d)) \/ r' < length (heap w)) ->
  links_valid w -> links_valid (update self f w).
Proof.
  intros Hf [Hreg Hlinks]. split.
  - intros ns r Hr. rewrite update_length. now apply (Hreg ns).
  - intros r r' Hin. rewrite update_length. rewrite direct_imports_update in Hin.
    destruct (decide (self = r)) as [<-|Hne]; [|now apply (Hlinks r)].
    destruct (heap w !! self) as [d0|] eqn:Hd0; [|destruct Hin].
    destruct (Hf d0 r' Hin) as [Hold|Hlt]; [|exact Hlt].
    apply (Hlinks self). unfold direct_imports. now rewrite Hd0.
Qed.

Lemma links_valid_registered (w : Document) (doc : Element) (loc : option string) :
  links_valid w -> links_valid (registered w doc loc).
Proof.
  intros [Hreg Hlinks]. split; simpl.
  - intros ns r Hr. rewrite length_app. simpl.
    destruct (decide (el_get doc "targetNamespace" = ns)) as [<-|Hne].
    + rewrite lookup_insert_eq in Hr. injection Hr as <-. lia.
    + rewrite lookup_insert_ne in Hr by exact Hne. specialize (Hreg ns r Hr). lia.
  - intros r r' Hin. rewrite length_app. simpl. unfold direct_imports in Hin.
    simpl in Hin.
    destruct ((heap w ++ [new_definition loc doc]) !! r) as [d|] eqn:Hd; [|destruct Hin].
    apply lookup_app_Some in Hd as [Hd|[Hle Hd]].
    + assert (Hlt : r' < length (heap w)); [|lia].
      apply (Hlinks r). unfold direct_imports. now rewrite Hd.
    + destruct (r - length (heap w)) as [|k]; simpl in Hd; [|discriminate].
      injection Hd as <-. destruct Hin.
Qed.

Lemma Definition_init_links_valid (fuel : nat) (w : Document) (doc : Element)
    (loc : option string) :
  links_valid w ->
  result_sat true (fun r => links_valid (fst r)) (Definition_init fuel w doc loc).
Proof.
  revert w doc loc. induction fuel as [|fuel IH]; intros w doc loc Hvalid; [reflexivity|].
  rewrite Definition_init_S.
  apply (result_sat_bind true links_valid).
  - apply (parse_imports_loop_inv true _ (fun _ => True)
             (fun w1 _ r => r < length (heap w1))).
    + intros w1 node r Hw1 _ Hr. apply links_valid_update; [|exact Hw1].
      intros d r'. unfold link. simpl. intros Hin.
      apply dict_values_set_in in Hin as [->|Hin]; [now right|now left].
    + intros w1 s Hw1. apply links_valid_update; [|exact Hw1].
      intros d r' Hin. now left.
    + intros w1 node r [Hreg _] _ Hr. now apply (Hreg _ _ Hr).
    + intros w1 node document Hw1 _ _ _ _.
      eapply result_sat_mono;
        [|apply (result_sat_and true _ _ _ (IH w1 document _ Hw1)
                   (Definition_init_builds fuel w1 document _))].
      intros [w2 r] [Hw2 Hb]. simpl in *. split; [exact Hw2|].
      destruct (built_lookup _ _ _ _ _ Hb) as [Hlt _].
      destruct Hb as (-> & _). exact Hlt.
    + now apply links_valid_registered.
    + apply List.Forall_forall. auto.
  - intros w1 Hw1.
    destruct (parse_local w1 (length (heap w)) loc doc) as [w2|e] eqn:Hlocal;
      simpl; [|exact Logic.I].
    destruct (parse_local_heap _ _ _ _ _ Hlocal) as (_ & Hdefs & f & Hheap & Hf).
    pose proof (links_valid_update (length (heap w)) f w1) as Hupd.
    assert (Hpre : forall d r', In r' (dict_values (imports (f d))) ->
                     In r' (dict_values (imports d)) \/ r' < length (heap w1)).
    { intros d r' Hin. destruct (Hf d) as (_ & _ & _ & Himp).
      rewrite Himp in Hin. now left. }
    destruct (Hupd Hpre Hw1) as [U1 U2]. split.
    + intros ns r Hr. rewrite Hdefs in Hr. specialize (U1 ns r Hr).
      rewrite update_heap, <- Hheap in U1. exact U1.
    + intros r r' Hin. specialize (U2 r r').
      unfold direct_imports in U2, Hin. rewrite update_heap, <- Hheap in U2.
      now apply U2.
Qed.

(** X5.  No link dangles: when the references of the registry and of the
    import links are definitions of the document, they are so after a
    constructor call, and a lookup [get] on a definition of the document
    then either returns or fails with the [IndexError] of a missing key. *)
Theorem constructor_keeps_links_valid (fuel : nat) (w w' : Document) (doc : Element)
    (loc : option string) (self : ref) :
  links_valid w ->
  Definition_init fuel w doc loc = Done (Ok (w', self)) ->
  links_valid w' /\
  forall r name key e, r < length (heap w') -> get w' r name key = Raise e ->
    e = no_definition_found name.
Proof.
  intros Hvalid Hinit. pose proof (Definition_init_links_valid fuel w doc loc Hvalid) as Hv.
  rewrite Hinit in Hv. simpl in Hv. split; [exact Hv|].
  intros r name key e Hr Hget.
  destruct (lookup_lt_is_Some_2 _ _ Hr) as [d Hd].
  rewrite (get_unfold _ _ _ _ _ Hd) in Hget.
  destruct (dict_get (getattr d name) key); [discriminate|].
  assert (Hrefs : Forall (fun r' => r' < length (heap w')) (direct_imports w' r)).
  { apply List.Forall_forall. intros r' Hin. destruct Hv as [_ Hlinks].
    now apply (Hlinks r). }
  revert Hget. generalize (direct_imports w' r) Hrefs. intros rs Hrs.
  induction Hrs as [|r' rs Hr' _ IH]; simpl; [now intros [= <-]|].
  destruct (lookup_lt_is_Some_2 _ _ Hr') as [d' Hd']. rewrite Hd'.
  destruct (dict_get (getattr d' name) key); [discriminate|exact IH].
Qed.

Lemma links_agree_update_link (self : ref) (ns : option string) (r : ref) (w : Document) :
  links_agree w -> _definitions w !! ns = Some r ->
  links_agree (update self (link ns r) w).
Proof.
  intros Hagree Hreg r0 d0 ns0 r' Hd0 Hget. simpl.
  destruct (decide (self = r0)) as [<-|Hne].
  - rewrite update_lookup_eq in Hd0.
    destruct (heap w !! self) as [d|] eqn:Hd; [|discriminate].
    injection Hd0 as <-. unfold link in Hget. simpl in Hget.
    rewrite dict_get_set in Hget.
    destruct (decide (ns = ns0)) as [<-|Hns]; [congruence|].
    now apply (Hagree self d).
  - rewrite update_lookup_ne in Hd0 by exact Hne. now apply (Hagree r0 d0).
Qed.

Lemma links_agree_update_keep (self : ref) f (w : Document) :
  (forall d, imports (f d) = imports d) ->
  links_agree w -> links_agree (update self f w).
Proof.
  intros Hf Hagree r0 d0 ns0 r' Hd0 Hget. simpl.
  destruct (decide (self = r0)) as [<-|Hne].
  - rewrite update_lookup_eq in Hd0.
    destruct (heap w !! self) as [d|] eqn:Hd; [|discriminate].
    injection Hd0 as <-. rewrite Hf in Hget. now apply (Hagree self d).
  - rewrite update_lookup_ne in Hd0 by exact Hne. now apply (Hagree r0 d0).
Qed.

Lemma links_agree_registered (w : Document) (doc : Element) (loc : option string) :
  links_agree w -> _definitions w !! el_get doc "targetNamespace" = None ->
  links_agree (registered w doc loc).
Proof.
  intros Hagree Hfresh r0 d0 ns0 r' Hd0 Hget. simpl in *.
  apply lookup_app_Some in Hd0 as [Hd0|[Hle Hd0]].
  - pose proof (Hagree r0 d0 ns0 r' Hd0 Hget) as Hreg.
    rewrite lookup_insert_ne; [exact Hreg|]. intros Heq. congruence.
  - destruct (r0 - length (heap w)) as [|k]; simpl in Hd0; [|discriminate].
    injection Hd0 as <-. discriminate.
Qed.

(** With import declarations that name true namespaces, the constructor
    keeps the links and the registry in agreement, leaves its instance
    registered under the target namespace, and replaces no entry of the
    registry. *)
Lemma Definition_init_links_agree (fuel : nat) (w : Document) (doc : Element)
    (loc : option string) :
  loader_declares_true (doc_location w) ->
  declares_true_namespaces (doc_location w) doc ->
  _definitions w !! el_get doc "targetNamespace" = None ->
  links_agree w ->
  result_sat true
    (fun r => links_agree (fst r) /\ doc_location (fst r) = doc_location w /\
       _definitions (fst r) !! el_get doc "targetNamespace" = Some (snd r) /\
       forall ns r0, _definitions w !! ns = Some r0 -> _definitions (fst r) !! ns = Some r0)
    (Definition_init fuel w doc loc).
Proof.
  revert w doc loc. induction fuel as [|fuel IH]; intros w doc loc Hloader Htrue Hfresh Hagree;
    [reflexivity|].
  rewrite Definition_init_S.
  set (base := doc_location w) in *.
  set (I := fun w1 : Document =>
              links_agree w1 /\ doc_location w1 = base /\
              forall ns r0, _definitions (registered w doc loc) !! ns = Some r0 ->
                _definitions w1 !! ns = Some r0).
  apply (result_sat_bind true I).
  - apply (parse_imports_loop_inv true I (names_true_namespace base)
             (fun w1 node r => _definitions w1 !! el_get node "namespace" = Some r)).
    + intros w1 node r (Ha & Hl & Hm) _ Hr. split; [|split].
      * now apply links_agree_update_link.
      * exact Hl.
      * exact Hm.
    + intros w1 s (Ha & Hl & Hm). split; [|split].
      * apply links_agree_update_keep; [reflexivity|exact Ha].
      * exact Hl.
      * exact Hm.
    + auto.
    + intros w1 node document (Ha & Hl & Hm) Hnode Hnone Hload Hschema.
      rewrite Hl in Hload.
      assert (Hns : el_get document "targetNamespace" = el_get node "namespace")
        by now apply Hnode.
      assert (IH1 := IH w1 document
                (absolute_location (el_get node "location") loc)).
      rewrite Hl in IH1. rewrite Hns in IH1.
      specialize (IH1 Hloader (Hloader _ _ Hload Hschema) Hnone Ha).
      eapply result_sat_mono; [|exact IH1].
      intros [w2 r] (Ha2 & Hl2 & Hr2 & Hm2). simpl in *.
      split; [|exact Hr2]. split; [exact Ha2|]. split; [exact Hl2|]. auto.
    + split; [|split].
      * now apply links_agree_registered.
      * reflexivity.
      * auto.
    + apply List.Forall_forall. intros node Hnode document Hload Hschema.
      now apply (Htrue node document).
  - intros w1 (Ha & Hl & Hm).
    destruct (parse_local w1 (length (heap w)) loc doc) as [w2|e] eqn:Hlocal;
      simpl; [|exact Logic.I].
    destruct (parse_local_heap _ _ _ _ _ Hlocal) as (Hl2 & Hdefs & f & Hheap & Hf).
    split; [|split; [|split]].
    + pose proof (links_agree_update_keep (length (heap w)) f w1
                    (fun d => proj2 (proj2 (proj2 (Hf d)))) Ha) as Hk.
      intros r0 d0 ns0 r' Hd0 Hget. rewrite Hdefs.
      apply (Hk r0 d0 ns0 r'); [|exact Hget]. now rewrite update_heap, <- Hheap.
    + congruence.
    + rewrite Hdefs. apply Hm. apply registered_lookup.
    + intros ns r0 Hr0. rewrite Hdefs. apply Hm. unfold registered. simpl.
      rewrite lookup_insert_ne; [exact Hr0|]. intros Heq. congruence.
Qed.

(** X6.  Importers share definitions.  When the import declarations behind
    the loader and of the document name the target namespaces of the
    definitions their locations hold, then after a constructor call on a
    namespace that was not registered every import link of every definition
    is the registry's entry for the namespace of the link, a definition of
    that namespace; so two definitions that import one namespace hold the
    same definition.  The new instance is what the registry holds for its
    target namespace. *)
Theorem imports_share_registered_definitions (fuel : nat) (w w' : Document)
    (doc : Element) (loc : option string) (self : ref) :
  loader_declares_true (doc_location w) ->
  declares_true_namespaces (doc_location w) doc ->
  _definitions w !! el_get doc "targetNamespace" = None ->
  links_agree w ->
  registry_typed w ->
  Definition_init fuel w doc loc = Done (Ok (w', self)) ->
  (forall r d ns r', heap w' !! r = Some d -> dict_get (imports d) ns = Some r' ->
     _definitions w' !! ns = Some r' /\
     exists d', heap w' !! r' = Some d' /\ target_namespace d' = ns) /\
  (forall r1 r2 d1 d2 ns a b, heap w' !! r1 = Some d1 -> heap w' !! r2 = Some d2 ->
     dict_get (imports d1) ns = Some a -> dict_get (imports d2) ns = Some b -> a = b) /\
  _definitions w' !! el_get doc "targetNamespace" = Some self.
Proof.
  intros Hloader Htrue Hfresh Hagree Htyped Hinit.
  pose proof (Definition_init_links_agree fuel w doc loc Hloader Htrue Hfresh Hagree) as Ha.
  pose proof (Definition_init_builds fuel w doc loc) as Hb.
  rewrite Hinit in Ha, Hb. simpl in Ha, Hb.
  destruct Ha as (Ha & _ & Hself & _).
  destruct Hb as (_ & _ & _ & _ & _ & Hreg). specialize (Hreg Htyped).
  split; [|split; [|exact Hself]].
  - intros r d ns r' Hd Hget. split; [now apply (Ha r d)|].
    apply Hreg. now apply (Ha r d).
  - intros r1 r2 d1 d2 ns a b Hd1 Hd2 Hg1 Hg2.
    pose proof (Ha r1 d1 ns a Hd1 Hg1) as E1.
    pose proof (Ha r2 d2 ns b Hd2 Hg2) as E2. congruence.
Qed.

End BuildProperties.

(** ** More on resolution *)

Section ResolveMore.
Context `{Collaborators}.

Lemma same_on_refl {B} (g : WsdlDefinition -> B) (w : Document) : same_on g w w.
Proof. now split. Qed.

Lemma same_on_sym {B} (g : WsdlDefinition -> B) (w w' : Document) :
  same_on g w w' -> same_on g w' w.
Proof. intros [A1 B1]. now split. Qed.

Lemma same_on_trans {B} (g : WsdlDefinition -> B) (w1 w2 w3 : Document) :
  same_on g w1 w2 -> same_on g w2 w3 -> same_on g w1 w3.
Proof. intros [A1 B1] [A2 B2]. split; congruence. Qed.

Lemma same_on_weaken {B C} (g : WsdlDefinition -> B) (h : B -> C) (w w' : Document) :
  same_on g w w' -> same_on (fun d => h (g d)) w w'.
Proof.
  intros [A1 B1]. split; [exact A1|].
  rewrite <- !(List.map_map g h). now rewrite B1.
Qed.

Lemma same_on_update {B} (g : WsdlDefinition -> B) (self : ref) f (w : Document) :
  (forall d, heap w !! self = Some d -> g (f d) = g d) ->
  same_on g w (update self f w).
Proof.
  intros Hg. split; [reflexivity|].
  apply list_eq. intros j. rewrite !list_lookup_fmap.
  destruct (decide (self = j)) as [<-|Hne].
  - rewrite update_lookup_eq. destruct (heap w !! self) as [d|] eqn:Hd; simpl; [|reflexivity].
    f_equal. now apply Hg.
  - now rewrite update_lookup_ne.
Qed.

Lemma same_on_lookup {B} (g : WsdlDefinition -> B) (w w' : Document) (r : ref)
    (d : WsdlDefinition) :
  same_on g w w' -> heap w !! r = Some d ->
  exists d', heap w' !! r = Some d' /\ g d' = g d.
Proof.
  intros [_ Hmap] Hd.
  assert (Hr : map g (heap w) !! r = Some (g d))
    by (rewrite list_lookup_fmap, Hd; reflexivity).
  rewrite <- Hmap, list_lookup_fmap in Hr.
  destruct (heap w' !! r) as [d'|]; [|discriminate]. injection Hr as Hr. eauto.
Qed.

Lemma same_on_length {B} (g : WsdlDefinition -> B) (w w' : Document) :
  same_on g w w' -> length (heap w') = length (heap w).
Proof.
  intros [_ Hmap]. apply (f_equal (@length B)) in Hmap.
  now rewrite !length_map in Hmap.
Qed.

(** What is kept at [self] is kept of the definition [resolve_imports]
    started with. *)
Lemma same_on_at {B} (g : WsdlDefinition -> B) (w w' : Document) (self : ref) (b : B) :
  same_on g w w' ->
  (forall d0, heap w !! self = Some d0 -> g d0 = b) ->
  forall d0, heap w' !! self = Some d0 -> g d0 = b.
Proof.
  intros Hs Hw d0 Hd0.
  destruct (same_on_lookup g w' w self d0 (same_on_sym _ _ _ Hs) Hd0) as (d1 & Hd1 & Hg).
  rewrite <- Hg. now apply Hw.
Qed.

Lemma shape_keys (name : TableName) (d d' : WsdlDefinition) :
  shape d' = shape d -> dict_keys (getattr d' name) = dict_keys (getattr d name).
Proof. unfold shape. intros [= ]. now destruct name. Qed.

Lemma shape_imports (d d' : WsdlDefinition) : shape d' = shape d -> imports d' = imports d.
Proof. unfold shape. now intros [= ]. Qed.

Lemma set_table_frame (name : TableName) (d : WsdlDefinition) (key : string) (obj : Object) :
  In key (dict_keys (getattr d name)) ->
  frame (set_table name (dict_set (getattr d name) key obj) d) = frame d.
Proof.
  intros Hin.
  assert (Hc : dict_contains (getattr d name) key = true).
  { unfold dict_contains. destruct (dict_get (getattr d name) key) eqn:Hg; [reflexivity|].
    now apply dict_get_None_notin in Hg. }
  pose proof (dict_keys_set (getattr d name) key obj) as Hk. rewrite Hc in Hk.
  unfold frame, shape. destruct name; simpl in *; now rewrite Hk.
Qed.

(** A loop over a table whose keys the definition still has leaves the
    frame of every definition. *)
Lemma resolve_table_frame (name : TableName) (self : ref) (items : list (string * Object)) :
  forall w w',
    (forall d, heap w !! self = Some d ->
       forall k, In k (map fst items) -> In k (dict_keys (getattr d name))) ->
    resolve_table name w self items = Ok w' -> same_on frame w w'.
Proof.
  induction items as [|[key obj] items IH]; intros w w' Hkeys; simpl.
  - intros [= <-]. apply same_on_refl.
  - destruct (resolve_object w self obj) as [obj'|e]; simpl; [|discriminate].
    intros Hloop.
    assert (Hstep : same_on frame w
              (update self (fun d => set_table name (dict_set (getattr d name) key obj') d) w)).
    { apply same_on_update. intros d Hd. apply set_table_frame.
      apply (Hkeys d Hd). now left. }
    eapply same_on_trans; [exact Hstep|]. refine (IH _ _ _ Hloop).
    intros d' Hd' k Hk. rewrite update_lookup_eq in Hd'.
    destruct (heap w !! self) as [d|] eqn:Hd; [|discriminate]. injection Hd' as <-.
    assert (Hin : In key (dict_keys (getattr d name))) by (apply (Hkeys d eq_refl); now left).
    pose proof (set_table_frame name d key obj' Hin) as Hf.
    assert (Hs : shape (set_table name (dict_set (getattr d name) key obj') d) = shape d)
      by (unfold frame in Hf; congruence).
    rewrite (shape_keys name _ _ Hs). apply (Hkeys d eq_refl). now right.
Qed.

Lemma resolve_table_frame_at (name : TableName) (self : ref) (d : WsdlDefinition)
    (w w' : Document) :
  (forall d0, heap w !! self = Some d0 -> shape d0 = shape d) ->
  resolve_table name w self (getattr d name) = Ok w' -> same_on frame w w'.
Proof.
  intros Hshape. apply resolve_table_frame. intros d0 Hd0 k Hk.
  now rewrite (shape_keys name _ _ (Hshape d0 Hd0)).
Qed.

Lemma frame_shape_at (w w' : Document) (self : ref) (d : WsdlDefinition) :
  same_on frame w w' ->
  (forall d0, heap w !! self = Some d0 -> shape d0 = shape d) ->
  forall d0, heap w' !! self = Some d0 -> shape d0 = shape d.
Proof.
  intros Hs. apply (same_on_at shape).
  exact (same_on_weaken frame (fun x => fst (fst x)) _ _ Hs).
Qed.

Lemma resolve_tables_frame (w w' : Document) (self : ref) (d : WsdlDefinition) :
  (forall d0, heap w !! self = Some d0 -> shape d0 = shape d) ->
  resolve_tables w self d = Ok w' -> same_on frame w w'.
Proof.
  intros H0w. unfold resolve_tables.
  destruct (resolve_table messages_t w self (messages d)) as [w1|e] eqn:E1;
    simpl; [|discriminate].
  pose proof (resolve_table_frame_at messages_t self d w w1 H0w E1) as S1.
  pose proof (frame_shape_at _ _ _ _ S1 H0w) as H1.
  destruct (resolve_table port_types_t w1 self (port_types d)) as [w2|e] eqn:E2;
    simpl; [|discriminate].
  pose proof (resolve_table_frame_at port_types_t self d w1 w2 H1 E2) as S2.
  pose proof (frame_shape_at _ _ _ _ S2 H1) as H2.
  destruct (resolve_table bindings_t w2 self (bindings d)) as [w3|e] eqn:E3;
    simpl; [|discriminate].
  pose proof (resolve_table_frame_at bindings_t self d w2 w3 H2 E3) as S3.
  pose proof (frame_shape_at _ _ _ _ S3 H2) as H3.
  intros E4.
  pose proof (resolve_table_frame_at services_t self d w3 w' H3 E4) as S4.
  eauto using same_on_trans.
Qed.

(** The schema step changes the schema of [self] and nothing else. *)
Lemma adopt_schema_loop_frame (w w' : Document) (self : ref) (rs : list ref) :
  adopt_schema_loop w self rs = Ok w' ->
  same_on (fun d => (shape d, _resolved_imports d)) w w' /\
  forall r, r <> self -> heap w' !! r = heap w !! r.
Proof.
  revert w. induction rs as [|r rs IH]; intros w; simpl.
  - intros [= <-]. split; [apply same_on_refl|reflexivity].
  - destruct (heap w !! r) as [definition|]; [|discriminate].
    destruct (schema definition) as [s|]; [|apply IH].
    destruct (negb (is_empty s)); [|apply IH].
    intros Hloop. destruct (IH _ Hloop) as [Hs Hother]. split.
    + eapply same_on_trans; [|exact Hs]. now apply same_on_update.
    + intros r' Hne. rewrite (Hother r' Hne). apply update_lookup_ne. congruence.
Qed.

Lemma resolve_schema_frame (w w' : Document) (self : ref) (d : WsdlDefinition) :
  resolve_schema w self d = Ok w' ->
  same_on (fun d => (shape d, _resolved_imports d)) w w' /\
  (forall r, r <> self -> heap w' !! r = heap w !! r) /\
  (forall d0, heap w !! self = Some d0 -> schema d0 = schema d ->
     exists d', heap w' !! self = Some d' /\ schema d' <> None).
Proof.
  unfold resolve_schema. destruct (schema d) as [s|] eqn:Hschema.
  - intros [= <-]. split; [apply same_on_refl|]. split; [reflexivity|].
    intros d0 Hd0 Hs. exists d0. split; [exact Hd0|congruence].
  - destruct (adopt_schema_loop w self (dict_values (imports d))) as [w1|e] eqn:Hloop;
      simpl; [|discriminate].
    intros [= <-]. destruct (adopt_schema_loop_frame _ _ _ _ Hloop) as [Hs Hother].
    split; [|split].
    + eapply same_on_trans; [exact Hs|]. now apply same_on_update.
    + intros r Hne. rewrite update_lookup_ne by congruence. now apply Hother.
    + intros d0 Hd0 _. destruct (same_on_lookup _ _ _ _ _ Hs Hd0) as (d1 & Hd1 & _).
      rewrite update_lookup_eq, Hd1. simpl. eexists. split; [reflexivity|discriminate].
Qed.

(** No call of [resolve_imports] changes the shape of a definition. *)
Lemma resolve_imports_shape (fuel : nat) (w : Document) (self : ref) :
  result_sat true (same_on shape w) (resolve_imports fuel w self).
Proof.
  revert w self. induction fuel as [|fuel IH]; intros w self; [reflexivity|].
  destruct (heap w !! self) as [d|] eqn:Hd; [|simpl; now rewrite Hd].
  rewrite (resolve_imports_S _ _ _ _ Hd).
  destruct (_resolved_imports d); [apply same_on_refl|].
  set (w0 := update self (set_resolved_imports true) w).
  assert (S0 : same_on shape w w0) by now apply same_on_update.
  destruct (resolve_schema w0 self d) as [w1|e] eqn:Hschema; simpl; [|exact Logic.I].
  destruct (resolve_schema_frame _ _ _ _ Hschema) as (S1 & _).
  apply (same_on_weaken _ fst) in S1.
  assert (S01 : same_on shape w w1) by (eapply same_on_trans; [exact S0|exact S1]).
  apply (result_sat_bind true (same_on shape w)).
  - apply resolve_definitions_sat; [|exact S01].
    intros w' r Hw'. eapply result_sat_mono; [|apply IH].
    intros w'' Hw''. now apply (same_on_trans _ _ w').
  - intros w2 S2.
    destruct (resolve_tables w2 self d) as [w3|e] eqn:Htables; simpl; [|exact Logic.I].
    eapply same_on_trans; [exact S2|].
    apply (same_on_weaken frame (fun x => fst (fst x))).
    refine (resolve_tables_frame _ _ _ _ _ Htables).
    apply (same_on_at shape w w2 self (shape d) S2). intros d0 Hd0. congruence.
Qed.

Lemma resolved_keeps (w w' : Document) (r : ref) :
  keeps_resolved w w' -> resolved w r -> resolved w' r.
Proof.
  intros Hk (d & Hd & Hflag). destruct (Hk r d Hd) as (d' & Hd' & Hf).
  exists d'. auto.
Qed.

Lemma resolved_frame (w w' : Document) (r : ref) :
  same_on frame w w' -> resolved w r -> resolved w' r.
Proof.
  intros Hs (d & Hd & Hflag). destruct (same_on_lookup _ _ _ _ _ Hs Hd) as (d' & Hd' & Hf).
  exists d'. split; [exact Hd'|]. unfold frame in Hf. congruence.
Qed.

Lemma closed_except_frame (stack : list ref) (w w' : Document) :
  same_on frame w w' -> closed_except stack w -> closed_except stack w'.
Proof.
  intros Hs Hc r d' Hd' Hflag.
  destruct (same_on_lookup _ _ _ _ _ (same_on_sym _ _ _ Hs) Hd') as (d & Hd & Hf).
  assert (Hshape : shape d = shape d') by (unfold frame in Hf; congruence).
  assert (Hfl : _resolved_imports d = true) by (unfold frame in Hf; congruence).
  assert (Hsch : schema d = schema d') by (unfold frame in Hf; congruence).
  destruct (Hc r d Hd Hfl) as [Hsome Himp]. split; [congruence|].
  intros Hn. rewrite <- (shape_imports _ _ Hshape).
  eapply List.Forall_impl; [|exact (Himp Hn)].
  intros i. now apply resolved_frame.
Qed.

(** The loop over the imports, when every call keeps the closure: all the
    imports are resolved when it ends. *)
Lemma resolve_definitions_closed (fuel : nat) (stack : list ref) :
  (forall w self, closed_except stack w ->
     result_sat true (fun w' => closed_except stack w' /\ resolved w' self)
       (resolve_imports fuel w self)) ->
  forall rs w, closed_except stack w ->
    result_sat true
      (fun w' => closed_except stack w' /\ keeps_resolved w w' /\
         Forall (resolved w') rs /\ same_on shape w w')
      (resolve_definitions (resolve_imports fuel) w rs).
Proof.
  intros Hcall rs. induction rs as [|r rs IH]; intros w Hc; simpl.
  - split; [exact Hc|]. split; [apply keeps_resolved_refl|].
    split; [constructor|apply same_on_refl].
  - apply (result_sat_bind true
             (fun w1 => (closed_except stack w1 /\ resolved w1 r) /\
                keeps_resolved w w1 /\ same_on shape w w1)).
    + apply result_sat_and; [now apply Hcall|].
      apply result_sat_and; [apply resolve_imports_keeps|apply resolve_imports_shape].
    + intros w1 ((Hc1 & Hr1) & Hk1 & Hs1).
      eapply result_sat_mono; [|apply (IH w1 Hc1)].
      intros w2 (Hc2 & Hk2 & Hall & Hs2). split; [exact Hc2|]. split; [|split].
      * now apply (keeps_resolved_trans _ w1).
      * constructor; [now apply (resolved_keeps w1)|exact Hall].
      * now apply (same_on_trans _ _ w1).
Qed.

(** The depth-first invariant of [resolve_imports]. *)
Lemma resolve_imports_closed (fuel : nat) :
  forall (stack : list ref) (w : Document) (self : ref),
    closed_except stack w ->
    result_sat true (fun w' => closed_except stack w' /\ resolved w' self)
      (resolve_imports fuel w self).
Proof.
  induction fuel as [|fuel IH]; intros stack w self Hc; [reflexivity|].
  destruct (heap w !! self) as [d|] eqn:Hd; [|simpl; now rewrite Hd].
  rewrite (resolve_imports_S _ _ _ _ Hd).
  destruct (_resolved_imports d) eqn:Hres.
  { split; [exact Hc|]. exists d. now split. }
  set (w0 := update self (set_resolved_imports true) w).
  assert (Hd0 : heap w0 !! self = Some (set_resolved_imports true d))
    by (unfold w0; rewrite update_lookup_eq, Hd; reflexivity).
  assert (K0 : keeps_resolved w w0) by (apply keeps_resolved_update; auto).
  assert (S0 : same_on shape w w0) by now apply same_on_update.
  destruct (resolve_schema w0 self d) as [w1|e] eqn:Hschema; simpl; [|exact Logic.I].
  destruct (resolve_schema_frame _ _ _ _ Hschema) as (S1 & Hother & Hself).
  assert (K1 : keeps_resolved w0 w1)
    by (apply flags_keeps_resolved; now apply (resolve_schema_flags _ _ _ _ Hschema)).
  assert (R1 : resolved w1 self).
  { apply (resolved_keeps w0); [exact K1|]. eexists. split; [exact Hd0|reflexivity]. }
  assert (Hc1 : closed_except (self :: stack) w1).
  { intros r d1 Hd1 Hflag1. destruct (decide (r = self)) as [->|Hne].
    - split.
      + destruct (Hself _ Hd0 eq_refl) as (d' & Hd' & Hsome). congruence.
      + intros Hn. exfalso. apply Hn. now left.
    - rewrite (Hother r Hne) in Hd1. unfold w0 in Hd1.
      rewrite update_lookup_ne in Hd1 by congruence.
      destruct (Hc r d1 Hd1 Hflag1) as [Hsome Himp]. split; [exact Hsome|].
      intros Hn. assert (Hn' : ~ In r stack) by (intros Hin; apply Hn; now right).
      eapply List.Forall_impl; [|exact (Himp Hn')].
      intros i Hi. apply (resolved_keeps w0); [exact K1|].
      now apply (resolved_keeps w). }
  apply (same_on_weaken _ fst) in S1.
  assert (S01 : same_on shape w w1) by (eapply same_on_trans; [exact S0|exact S1]).
  apply (result_sat_bind true
           (fun w2 => closed_except (self :: stack) w2 /\ keeps_resolved w1 w2 /\
              Forall (resolved w2) (dict_values (imports d)) /\ same_on shape w1 w2)).
  - apply resolve_definitions_closed; [|exact Hc1]. intros w' r. apply IH.
  - intros w2 (Hc2 & K2 & Hall & S2).
    destruct (resolve_tables w2 self d) as [w3|e] eqn:Htables; simpl; [|exact Logic.I].
    assert (S02 : same_on shape w w2) by (eapply same_on_trans; [exact S01|exact S2]).
    assert (Hat : forall d0, heap w2 !! self = Some d0 -> shape d0 = shape d).
    { apply (same_on_at shape w w2 self (shape d) S02). intros d0 Hd0'. congruence. }
    pose proof (resolve_tables_frame _ _ _ _ Hat Htables) as S3.
    split.
    + apply (closed_except_frame stack w2 w3 S3).
      intros r d2 Hd2 Hflag2. destruct (Hc2 r d2 Hd2 Hflag2) as [Hsome Himp].
      split; [exact Hsome|]. intros Hn.
      destruct (decide (r = self)) as [->|Hne].
      * rewrite (shape_imports _ _ (Hat d2 Hd2)). exact Hall.
      * apply Himp. intros [Heq|Hin]; [congruence|contradiction].
    + apply (resolved_frame w2 w3 self S3). now apply (resolved_keeps w1).
Qed.

Lemma resolve_definitions_fuel (res res' : Document -> ref -> Result Document) :
  (forall w r o, res w r = Done o -> res' w r = Done o) ->
  forall rs w o, resolve_definitions res w rs = Done o ->
    resolve_definitions res' w rs = Done o.
Proof.
  intros Hres rs. induction rs as [|r rs IH]; intros w o; simpl; [auto|].
  destruct (res w r) as [[w1|e]|] eqn:Hr; simpl; [| |discriminate].
  - rewrite (Hres _ _ _ Hr). simpl. apply IH.
  - rewrite (Hres _ _ _ Hr). simpl. auto.
Qed.

(** A call that returned returns the same with more fuel. *)
Lemma resolve_imports_fuel (fuel : nat) (w : Document) (self : ref) (o : Outcome Document) :
  resolve_imports fuel w self = Done o -> resolve_imports (S fuel) w self = Done o.
Proof.
  revert w self o. induction fuel as [|fuel IH]; intros w self o; [discriminate|].
  destruct (heap w !! self) as [d|] eqn:Hd; [|simpl; now rewrite Hd].
  rewrite !(resolve_imports_S _ _ _ _ Hd).
  destruct (_resolved_imports d); [auto|].
  destruct (resolve_schema _ self d) as [w1|e]; cbn [mbind Result_bind]; [|auto].
  destruct (resolve_definitions (resolve_imports fuel) w1 (dict_values (imports d)))
    as [o1|] eqn:Hloop; cbn [mbind Result_bind]; [|discriminate].
  rewrite (resolve_definitions_fuel _ _ IH _ _ _ Hloop). auto.
Qed.

Lemma resolve_imports_fuel_le (fuel fuel' : nat) (w : Document) (self : ref)
    (o : Outcome Document) :
  fuel <= fuel' ->
  resolve_imports fuel w self = Done o -> resolve_imports fuel' w self = Done o.
Proof.
  intros Hle Hres. induction Hle as [|fuel' Hle IH]; [exact Hres|].
  now apply resolve_imports_fuel.
Qed.

(** X7.  [resolve_imports] returns on every import graph, cycles included:
    a call with more fuel than the document has definitions ends, in a
    result or in an exception, that is the same for every such fuel; and a
    result has no more unresolved definitions than the document had. *)
Theorem resolve_imports_returns (fuel fuel' : nat) (w : Document) (self : ref) :
  length (heap w) < fuel ->
  length (heap w) < fuel' ->
  terminates (resolve_imports fuel w self) /\
  resolve_imports fuel' w self = resolve_imports fuel w self /\
  forall w', resolve_imports fuel w self = Done (Ok w') ->
    length (heap w') = length (heap w) /\ unresolved w' <= unresolved w.
Proof.
  intros Hfuel Hfuel'. pose proof (unresolved_le_length w) as Hle.
  pose proof (resolve_imports_terminates fuel w self ltac:(lia)) as Ht.
  pose proof (resolve_imports_terminates fuel' w self ltac:(lia)) as Ht'.
  pose proof (resolve_imports_shape fuel w self) as Hs.
  destruct (resolve_imports fuel w self) as [o|] eqn:Hres; [|discriminate].
  destruct (resolve_imports fuel' w self) as [o'|] eqn:Hres'; [|discriminate].
  split; [discriminate|]. split.
  - destruct (Nat.le_ge_cases fuel fuel') as [Hc|Hc].
    + rewrite (resolve_imports_fuel_le _ _ _ _ _ Hc Hres) in Hres'. congruence.
    + rewrite (resolve_imports_fuel_le _ _ _ _ _ Hc Hres') in Hres. congruence.
  - intros w' [= ->]. simpl in Ht, Hs. split; [|exact Ht].
    now apply (same_on_length shape).
Qed.

(** X8.  [resolve_imports] changes the schema, the flag and the objects of
    the tables only: a call that returns has left the location, the
    registry and the parser context of the document, has added and removed
    no definition, and has left every definition its location, its target
    namespace, its import links and the keys of its four tables, in their
    order. *)
Theorem resolve_imports_keeps_shape (fuel : nat) (w w' : Document) (self : ref) :
  resolve_imports fuel w self = Done (Ok w') ->
  doc_location w' = doc_location w /\
  _definitions w' = _definitions w /\
  _parser_context w' = _parser_context w /\
  length (heap w') = length (heap w) /\
  forall r d, heap w !! r = Some d ->
    exists d', heap w' !! r = Some d' /\
      location d' = location d /\
      target_namespace d' = target_namespace d /\
      imports d' = imports d /\
      forall name, dict_keys (getattr d' name) = dict_keys (getattr d name).
Proof.
  intros Hres. pose proof (resolve_imports_shape fuel w self) as Hs.
  rewrite Hres in Hs. simpl in Hs.
  pose proof (same_on_length _ _ _ Hs) as Hlen.
  pose proof (fun r d => same_on_lookup shape w w' r d Hs) as Hlook.
  destruct Hs as [Hout _]. unfold outside_heap in Hout.
  injection Hout as Hl Hdefs Hpc. repeat split; auto.
  intros r d Hd.
  destruct (Hlook r d Hd) as (d' & Hd' & Hshape).
  exists d'. split; [exact Hd'|].
  pose proof (fun name => shape_keys name _ _ Hshape) as Hkeys.
  unfold shape in Hshape. injection Hshape as -> -> -> _ _ _ _. auto.
Qed.

Lemma closed_reachable (w : Document) (r r' : ref) :
  closed_except [] w -> reachable w r r' -> resolved w r -> resolved w r'.
Proof.
  intros Hc Hreach. induction Hreach as [r|r i r' Hin _ IH]; [auto|].
  intros (d & Hd & Hflag). apply IH.
  destruct (Hc r d Hd Hflag) as [_ Himp]. specialize (Himp (fun x => x)).
  rewrite List.Forall_forall in Himp. apply Himp.
  unfold direct_imports in Hin. now rewrite Hd in Hin.
Qed.

Lemma reachable_same_on (w w' : Document) (r r' : ref) :
  same_on shape w w' -> reachable w r r' -> reachable w' r r'.
Proof.
  intros Hs Hreach. induction Hreach as [r|r i r' Hin _ IH]; [constructor|].
  apply (reachable_import w' r i r'); [|exact IH].
  unfold direct_imports in *. destruct (heap w !! r) as [d|] eqn:Hd; [|destruct Hin].
  destruct (same_on_lookup _ _ _ _ _ Hs Hd) as (d' & -> & Hshape).
  now rewrite (shape_imports _ _ Hshape).
Qed.

(** X9.  [resolve_imports] reaches every import of every import: after a
    call that returns, on a document in which no definition was resolved,
    every definition that is reachable from the one of the call along the
    import links is resolved and has a schema. *)
Theorem resolve_imports_resolves_reachable (fuel : nat) (w w' : Document) (self r : ref) :
  (forall r0 d0, heap w !! r0 = Some d0 -> _resolved_imports d0 = false) ->
  resolve_imports fuel w self = Done (Ok w') ->
  reachable w self r ->
  exists d, heap w' !! r = Some d /\ _resolved_imports d = true /\ schema d <> None.
Proof.
  intros Hfresh Hres Hreach.
  assert (Hc : closed_except [] w).
  { intros r0 d0 Hd0 Hflag. rewrite (Hfresh r0 d0 Hd0) in Hflag. discriminate. }
  pose proof (resolve_imports_closed fuel [] w self Hc) as Hclosed.
  pose proof (resolve_imports_shape fuel w self) as Hs.
  rewrite Hres in Hclosed, Hs. simpl in Hclosed, Hs. destruct Hclosed as [Hc' Hself].
  destruct (closed_reachable w' self r Hc' (reachable_same_on _ _ _ _ Hs Hreach) Hself)
    as (d & Hd & Hflag).
  exists d. split; [exact Hd|]. split; [exact Hflag|]. now apply (Hc' r d Hd Hflag).
Qed.

Lemma dict_get_same_keys {V V'} (t : dict string V) (t' : dict string V') (k : string) :
  dict_keys t' = dict_keys t -> dict_get t k = None -> dict_get t' k = None.
Proof. intros Hkeys. rewrite !dict_get_None_notin. now rewrite Hkeys. Qed.

Lemma get_own_same_on (d d' : WsdlDefinition) (name : TableName) (key : string) :
  shape d' = shape d ->
  match dict_get (getattr d name) key, dict_get (getattr d' name) key with
  | Some _, Some _ | None, None => True
  | _, _ => False
  end.
Proof.
  intros Hshape. pose proof (shape_keys name _ _ Hshape) as Hkeys.
  destruct (dict_get (getattr d name) key) eqn:Hg, (dict_get (getattr d' name) key) eqn:Hg';
    auto.
  - rewrite (dict_get_same_keys _ _ key (eq_sym Hkeys) Hg') in Hg. discriminate.
  - rewrite (dict_get_same_keys _ _ key Hkeys Hg) in Hg'. discriminate.
Qed.

Lemma lookup_None_same_on {B} (g : WsdlDefinition -> B) (w w' : Document) (r : ref) :
  same_on g w w' -> heap w !! r = None -> heap w' !! r = None.
Proof.
  intros Hs Hr. apply lookup_ge_None. apply lookup_ge_None in Hr.
  now rewrite (same_on_length _ _ _ Hs).
Qed.

Lemma get_imported_same_on (w w' : Document) (name : TableName) (key : string)
    (rs : list ref) :
  same_on shape w w' ->
  same_outcome (get_imported w name key rs) (get_imported w' name key rs).
Proof.
  intros Hs. induction rs as [|r rs IH]; simpl; [reflexivity|].
  destruct (heap w !! r) as [d|] eqn:Hd.
  - destruct (same_on_lookup _ _ _ _ _ Hs Hd) as (d' & -> & Hshape).
    pose proof (get_own_same_on d d' name key Hshape) as Hown.
    destruct (dict_get (getattr d name) key), (dict_get (getattr d' name) key);
      try contradiction; [exact Logic.I|exact IH].
  - now rewrite (lookup_None_same_on _ _ _ _ Hs Hd).
Qed.

(** X11.  Resolution does not change what [get] finds: after a call of
    [resolve_imports] that returns, a lookup on any definition returns when
    it returned before the call, and raises the same exception when it
    raised before. *)
Theorem resolve_imports_keeps_lookups (fuel : nat) (w w' : Document) (self : ref) :
  resolve_imports fuel w self = Done (Ok w') ->
  forall r name key,
    same_outcome (get w r name key) (get w' r name key) /\
    (forall e, get w r name key = Raise e <-> get w' r name key = Raise e).
Proof.
  intros Hres r name key. pose proof (resolve_imports_shape fuel w self) as Hs.
  rewrite Hres in Hs. simpl in Hs.
  assert (Hsame : same_outcome (get w r name key) (get w' r name key)).
  { unfold get. destruct (heap w !! r) as [d|] eqn:Hd.
    - destruct (same_on_lookup _ _ _ _ _ Hs Hd) as (d' & -> & Hshape).
      pose proof (get_own_same_on d d' name key Hshape) as Hown.
      destruct (dict_get (getattr d name) key), (dict_get (getattr d' name) key);
        try contradiction; [exact Logic.I|].
      rewrite (shape_imports _ _ Hshape). now apply get_imported_same_on.
    - now rewrite (lookup_None_same_on _ _ _ _ Hs Hd). }
  split; [exact Hsame|]. intros e.
  destruct (get w r name key) as [v|e0], (get w' r name key) as [v'|e0'];
    simpl in Hsame; try contradiction.
  - split; discriminate.
  - subst. reflexivity.
Qed.

End ResolveMore.

(** ** The tables of messages, port types and services *)

Section FillFacts.
Context {K V : Type} `{EqDecision K}.

Lemma dict_get_app (d1 d2 : dict K V) (k : K) :
  dict_get (d1 ++ d2) k =
    match dict_get d1 k with Some v => Some v | None => dict_get d2 k end.
Proof.
  induction d1 as [|[k0 v0] d1 IH]; simpl; [reflexivity|].
  destruct (decide (k0 = k)); [reflexivity|apply IH].
Qed.

Lemma fill_get (table : dict K V) (items : list (K * V)) (k : K) :
  dict_get (fill table items) k =
    match last_with items k with Some v => Some v | None => dict_get table k end.
Proof.
  unfold fill, last_with. revert table.
  induction items as [|[k0 v0] items IH]; intros table; simpl; [reflexivity|].
  rewrite IH, dict_get_app. destruct (dict_get (rev items) k); [reflexivity|].
  simpl. rewrite dict_get_set. destruct (decide (k0 = k)); reflexivity.
Qed.

Lemma filter_filter_bool {A} (f g : A -> bool) (l : list A) :
  List.filter f (List.filter g l) = List.filter (fun x => g x && f x) l.
Proof.
  induction l as [|x l IH]; simpl; [reflexivity|].
  destruct (g x); simpl; [destruct (f x); simpl; now rewrite IH|exact IH].
Qed.

Lemma fill_keys (table : dict K V) (items : list (K * V)) :
  dict_keys (fill table items) =
    dict_keys table
      ++ List.filter (fun k => negb (dict_contains table k))
           (first_occurrences (map fst items)).
Proof.
  unfold fill. revert table.
  induction items as [|[k0 v0] items IH]; intros table; simpl.
  - now rewrite app_nil_r.
  - rewrite IH, dict_keys_set. rewrite filter_filter_bool.
    destruct (dict_contains table k0) eqn:Hc; simpl.
    + f_equal. apply List.filter_ext. intros k. unfold dict_contains.
      rewrite dict_get_set. destruct (decide (k0 = k)) as [<-|Hne].
      * unfold dict_contains in Hc. destruct (dict_get table k0); [|discriminate].
        rewrite bool_decide_eq_true_2 by reflexivity. reflexivity.
      * rewrite bool_decide_eq_false_2 by congruence.
        now destruct (dict_get table k).
    + rewrite <- app_assoc. simpl. do 2 f_equal.
      apply List.filter_ext. intros k. unfold dict_contains.
      rewrite dict_get_set. destruct (decide (k0 = k)) as [<-|Hne].
      * rewrite bool_decide_eq_true_2 by reflexivity. reflexivity.
      * rewrite bool_decide_eq_false_2 by congruence.
        now destruct (dict_get table k).
Qed.

Lemma fill_empty_keys (items : list (K * V)) :
  dict_keys (fill [] items) = first_occurrences (map fst items).
Proof.
  rewrite fill_keys. simpl. induction (first_occurrences (map fst items)) as [|k l IH];
    simpl; [reflexivity|]. now rewrite IH.
Qed.

End FillFacts.

Section TableProperties.
Context `{Collaborators}.

Lemma fill_keyed_by_name {A} (name : A -> string) (wrap : A -> Object) (parsed : list A) :
  keyed_by_name name wrap parsed (fill [] (map (fun a => (name a, wrap a)) parsed)).
Proof.
  split.
  - rewrite fill_empty_keys, map_map. reflexivity.
  - intros k. rewrite fill_get. now destruct (last_with _ k).
Qed.

Lemma parse_messages_loop_fill (w : Document) (self : ref) (nodes : list Element)
    (result : dict string Object) :
  parse_messages_loop w self nodes result =
    (msgs ← for_each (AbstractMessage_parse w self) nodes;
     Ok (fill result (map (fun m => (Message_name m, MessageObj m)) msgs))).
Proof.
  revert result. induction nodes as [|n nodes IH]; intros result; simpl; [reflexivity|].
  destruct (AbstractMessage_parse w self n) as [m|e]; simpl; [|reflexivity].
  rewrite IH. now destruct (for_each _ nodes).
Qed.

Lemma parse_ports_loop_fill (w : Document) (self : ref) (nodes : list Element)
    (result : dict string Object) :
  parse_ports_loop w self nodes result =
    (ports ← for_each (PortType_parse w self) nodes;
     Ok (fill result (map (fun p => (PortType_name p, PortTypeObj p)) ports))).
Proof.
  revert result. induction nodes as [|n nodes IH]; intros result; simpl; [reflexivity|].
  destruct (PortType_parse w self n) as [p|e]; simpl; [|reflexivity].
  rewrite IH. now destruct (for_each _ nodes).
Qed.

Lemma parse_service_loop_fill (w : Document) (self : ref) (nodes : list Element)
    (result : dict string Object) :
  parse_service_loop w self nodes result =
    (services ← for_each (Service_parse w self) nodes;
     Ok (fill result (map (fun s => (Service_name s, ServiceObj s)) services))).
Proof.
  revert result. induction nodes as [|n nodes IH]; intros result; simpl; [reflexivity|].
  destruct (Service_parse w self n) as [s|e]; simpl; [|reflexivity].
  rewrite IH. now destruct (for_each _ nodes).
Qed.

(** The first node that fails to parse decides the exception. *)
Lemma for_each_first_failure {A B} (f : A -> Outcome B) (pre post : list A) (x : A)
    (ys : list B) (e : Exception) :
  for_each f pre = Ok ys -> f x = Raise e -> for_each f (pre ++ x :: post) = Raise e.
Proof.
  revert ys. induction pre as [|p pre IH]; intros ys; simpl.
  - intros _ ->. reflexivity.
  - destruct (f p) as [y|e']; simpl; [|discriminate].
    destruct (for_each f pre) as [ys'|e'] eqn:Hpre; simpl; [|discriminate].
    intros _ Hx. now rewrite (IH ys' eq_refl Hx).
Qed.


End TableProperties.

(** ** More on [parse_types]: the locations of the fragments *)

Section RegistrationProperties.
Context `{Collaborators}.

Lemma int_name_inj (i j : nat) : int_name i = int_name j -> i = j.
Proof.
  unfold int_name. intros Heq. cbn [String.append] in Heq.
  injection Heq as Heq. now apply (inj pretty).
Qed.

Lemma register_loop_other (sns : dict (option string) string) (loc : option string)
    (nodes : list Element) :
  forall i pc k,
    (forall j, i <= j < i + length nodes -> k <> int_name j) ->
    dict_get (schema_locations (register_loop sns loc i nodes pc)) k
      = dict_get (schema_locations pc) k.
Proof.
  induction nodes as [|n nodes IH]; intros i pc k Hk; simpl; [reflexivity|].
  rewrite IH.
  - simpl. apply dict_get_set_ne. intros Heq. apply (Hk i); [simpl; lia|congruence].
  - intros j Hj. apply Hk. simpl. lia.
Qed.

Lemma register_loop_token (sns : dict (option string) string) (loc : option string)
    (nodes : list Element) :
  forall i pc j,
    i <= j < i + length nodes ->
    dict_get (schema_locations (register_loop sns loc i nodes pc)) (int_name j) = Some loc.
Proof.
  induction nodes as [|n nodes IH]; intros i pc j Hj; simpl in *; [lia|].
  destruct (decide (j = i)) as [->|Hne].
  - rewrite register_loop_other.
    + simpl. apply dict_get_set_eq.
    + intros j' Hj' Heq. apply int_name_inj in Heq. lia.
  - apply IH. lia.
Qed.

(** [parse_types] on two or more fragments. *)
Lemma parse_types_many (w : Document) (self_location : option string) (doc : Element)
    (fragments : list Element) :
  reparse w self_location (find_schema_nodes doc) = Ok fragments ->
  2 <= length fragments ->
  parse_types w self_location doc =
    (container ← container_loop (schema_ns_loop 0 fragments []) 0 fragments [];
     Ok (set_parser_context
           (register_loop (schema_ns_loop 0 fragments []) self_location 0 fragments
              (_parser_context w)) w,
         Some (mkSchema
                 (Some (mkElement (mkQName (Some XSD_2001) "schema") [] [] container))
                 self_location))).
Proof.
  intros Hre Hlen. unfold parse_types.
  destruct (find_schema_nodes doc) as [|n ns] eqn:Hnodes.
  { simpl in Hre. injection Hre as <-. simpl in Hlen. lia. }
  rewrite Hre. destruct fragments as [|f1 [|f2 rest]]; simpl in Hlen; try lia.
  reflexivity.
Qed.

(** X12.  The locations [parse_types] records.  With fewer than two
    fragments it leaves the document as it is.  With two or more it changes
    the parser context only: every fragment has the location of the
    definition under its token, whatever an earlier definition of the
    document recorded under that token, and the entries of the other tokens
    are as they were.  Fragments at distinct positions have distinct
    tokens. *)
Theorem parse_types_records_locations (w w' : Document) (self_location : option string)
    (doc : Element) (fragments : list Element) (s : option Schema) :
  reparse w self_location (find_schema_nodes doc) = Ok fragments ->
  parse_types w self_location doc = Ok (w', s) ->
  (length fragments < 2 -> w' = w) /\
  (2 <= length fragments ->
     heap w' = heap w /\ _definitions w' = _definitions w /\
     doc_location w' = doc_location w /\
     (forall i, i < length fragments ->
        dict_get (schema_locations (_parser_context w')) (int_name i)
          = Some self_location) /\
     (forall k, (forall i, i < length fragments -> k <> int_name i) ->
        dict_get (schema_locations (_parser_context w')) k
          = dict_get (schema_locations (_parser_context w)) k)) /\
  (forall i j, int_name i = int_name j -> i = j).
Proof.
  intros Hre Hparse. split; [|split; [|exact int_name_inj]].
  - intros Hlen. unfold parse_types in Hparse.
    destruct (find_schema_nodes doc) as [|n ns] eqn:Hnodes; [now injection Hparse|].
    rewrite Hre in Hparse. simpl in Hparse.
    pose proof (for_each_length _ _ _ Hre) as Hl.
    destruct fragments as [|f1 [|f2 rest]]; simpl in Hlen, Hl; try lia.
    now injection Hparse.
  - intros Hlen. rewrite (parse_types_many _ _ _ _ Hre Hlen) in Hparse.
    destruct (container_loop _ 0 fragments []) as [container|e];
      simpl in Hparse; [|discriminate].
    injection Hparse as <- _. simpl.
    split; [reflexivity|]. split; [reflexivity|]. split; [reflexivity|]. split.
    + intros i Hi. apply register_loop_token. lia.
    + intros k Hk. apply register_loop_other. intros j Hj. apply Hk. lia.
Qed.

End RegistrationProperties.

(** ** The document as a whole: [Document.__init__] *)

Section WholeDocument.
Context `{Collaborators}.

Lemma shape_target_namespace (d d' : WsdlDefinition) :
  shape d' = shape d -> target_namespace d' = target_namespace d.
Proof. unfold shape. now intros [= ]. Qed.

Lemma shape_location (d d' : WsdlDefinition) :
  shape d' = shape d -> location d' = location d.
Proof. unfold shape. now intros [= ]. Qed.

Lemma same_on_definitions {B} (g : WsdlDefinition -> B) (w w' : Document) :
  same_on g w w' ->
  doc_location w' = doc_location w /\ _definitions w' = _definitions w.
Proof. intros [Hout _]. unfold outside_heap in Hout. now injection Hout. Qed.

Lemma registry_typed_same_on (w w' : Document) :
  same_on shape w w' -> registry_typed w -> registry_typed w'.
Proof.
  intros Hs Htyped ns r Hr. destruct (same_on_definitions _ _ _ Hs) as [_ Hdefs].
  rewrite Hdefs in Hr. destruct (Htyped ns r Hr) as (d & Hd & Hns).
  destruct (same_on_lookup _ _ _ _ _ Hs Hd) as (d' & Hd' & Hshape).
  exists d'. split; [exact Hd'|]. now rewrite (shape_target_namespace _ _ Hshape).
Qed.

Lemma direct_imports_same_on (w w' : Document) (r : ref) :
  same_on shape w w' -> direct_imports w' r = direct_imports w r.
Proof.
  intros Hs. unfold direct_imports.
  destruct (heap w !! r) as [d|] eqn:Hd.
  - destruct (same_on_lookup _ _ _ _ _ Hs Hd) as (d' & -> & Hshape).
    now rewrite (shape_imports _ _ Hshape).
  - destruct (heap w' !! r) as [d'|] eqn:Hd'; [|reflexivity].
    destruct (same_on_lookup _ _ _ _ _ (same_on_sym _ _ _ Hs) Hd') as (d & Hd0 & _).
    congruence.
Qed.

Lemma links_valid_same_on (w w' : Document) :
  same_on shape w w' -> links_valid w -> links_valid w'.
Proof.
  intros Hs [Hreg Hlinks]. destruct (same_on_definitions _ _ _ Hs) as [_ Hdefs].
  unfold links_valid. rewrite (same_on_length _ _ _ Hs). split.
  - intros ns r. rewrite Hdefs. apply Hreg.
  - intros r r'. rewrite (direct_imports_same_on _ _ _ Hs). apply Hlinks.
Qed.

(** X10.  What a document that was built holds.  Its root definition is the
    first of the store; it has the location of the document, which is the
    location given or none for a stream, and the target namespace of the
    root element.  Every definition that is reachable from the root along
    the import links is resolved and has a schema, so that a further call
    of [resolve_imports] on it returns at once and changes nothing.  Every
    entry of the registry is a definition of the namespace of the entry, and
    no reference of the registry or of an import link dangles. *)
Theorem document_is_resolved (fuel : nat) (location_arg : LocationArg) (w : Document)
    (root : ref) :
  Document_init fuel location_arg = Done (Ok (w, root)) ->
  root = 0 /\
  doc_location w = match location_arg with Location l => l | Stream _ => None end /\
  (exists document d,
     _load_content (new_document location_arg) location_arg = Ok document /\
     heap w !! root = Some d /\
     location d = doc_location w /\
     target_namespace d = el_get document "targetNamespace") /\
  (forall r, reachable w root r ->
     (exists d, heap w !! r = Some d /\ _resolved_imports d = true /\ schema d <> None) /\
     forall fuel', resolve_imports (S fuel') w r = Done (Ok w)) /\
  registry_typed w /\
  links_valid w.
Proof.
  unfold Document_init. set (w0 := new_document location_arg).
  destruct (_load_content w0 location_arg) as [document|e] eqn:Hload;
    cbn [mbind Result_bind]; [|discriminate].
  pose proof (Definition_init_builds fuel w0 document (doc_location w0)) as Hb.
  assert (Hvalid0 : links_valid w0).
  { split.
    - intros ns r Hr. unfold w0 in Hr. simpl in Hr. now rewrite lookup_empty in Hr.
    - intros r r' Hin. unfold direct_imports, w0 in Hin. simpl in Hin. destruct Hin. }
  pose proof (Definition_init_links_valid fuel w0 document (doc_location w0) Hvalid0) as Hv.
  destruct (Definition_init fuel w0 document (doc_location w0)) as [[[w1 root1]|e]|];
    cbn [mbind Result_bind]; try discriminate.
  simpl in Hb, Hv.
  destruct Hb as (Hroot & Hloc & _ & Hdrop & (d1 & Hd1 & Hns1 & Hl1 & _) & Htyped).
  assert (Hfresh : closed_except [] w1).
  { intros r0 d0 Hd0 Hflag. exfalso. simpl in Hdrop.
    rewrite List.Forall_forall in Hdrop.
    assert (Hin : In d0 (heap w1))
      by (apply list_elem_of_In, list_elem_of_lookup; eauto).
    rewrite (Hdrop d0 Hin) in Hflag. discriminate. }
  pose proof (resolve_imports_closed fuel [] w1 root1 Hfresh) as Hc.
  pose proof (resolve_imports_shape fuel w1 root1) as Hs.
  destruct (resolve_imports fuel w1 root1) as [[w2|e]|];
    cbn [mbind Result_bind]; try discriminate.
  simpl in Hc, Hs. intros [= <- <-]. destruct Hc as [Hc Hself].
  destruct (same_on_definitions _ _ _ Hs) as [Hloc2 _].
  split; [exact Hroot|]. split; [now rewrite Hloc2, Hloc|].
  split; [|split; [|split]].
  - destruct (same_on_lookup _ _ _ _ _ Hs Hd1) as (d2 & Hd2 & Hshape).
    exists document, d2. split; [reflexivity|]. split; [exact Hd2|]. split.
    + rewrite (shape_location _ _ Hshape), Hloc2, Hloc, Hl1. reflexivity.
    + now rewrite (shape_target_namespace _ _ Hshape).
  - intros r Hreach.
    destruct (closed_reachable w2 root1 r Hc Hreach Hself) as (d & Hd & Hflag).
    split.
    + exists d. split; [exact Hd|]. split; [exact Hflag|]. now apply (Hc r d Hd Hflag).
    + intros fuel'. rewrite (resolve_imports_S _ _ _ _ Hd). now rewrite Hflag.
  - apply (registry_typed_same_on w1 w2 Hs). apply Htyped.
    intros ns r Hr. unfold w0 in Hr. simpl in Hr. now rewrite lookup_empty in Hr.
  - now apply (links_valid_same_on w1 w2 Hs).
Qed.

End WholeDocument.

(** * Sample runs *)

Section SampleRuns.
#[local] Existing Instance sample_entities.

Lemma sample_lookup_in (files : dict string Element) (l : option string)
    (document : Element) :
  sample_lookup files l = Ok document -> In document (dict_values files).
Proof.
  destruct l as [k|]; simpl; [|discriminate].
  destruct (dict_get files k) as [e|] eqn:Hget; [|discriminate].
  intros [= <-]. apply dict_get_Some_in in Hget.
  now apply (in_map snd) in Hget.
Qed.

Lemma sample_loader_well_formed (base : option string) :
  @loader_well_formed _ sample base sample_namespaces.
Proof.
  intros location document Hload Hschema. simpl in Hload.
  apply sample_lookup_in in Hload. simpl in Hload.
  repeat (destruct Hload as [<-|Hload]); try discriminate Hschema; try destruct Hload;
    (split; [unfold sample_namespaces; apply elem_of_list_to_set; simpl; repeat constructor|]);
    intros node document' Hin Hload' Hschema'; simpl in Hin;
    repeat (destruct Hin as [<-|Hin]); try destruct Hin;
    vm_compute in Hload'; try discriminate Hload';
    injection Hload' as <-; try discriminate Hschema'; reflexivity.
Qed.

(** The cycle a -> b -> c -> a is built with one definition per namespace,
    and every definition is resolved. *)
Example a_resolved_summary :
  map (fun d => (target_namespace d, _resolved_imports d, dict_values (imports d)))
      (heap a_resolved)
  = [(Some "urn:a", true, [1]); (Some "urn:b", true, [2]); (Some "urn:c", true, [0])].
Proof. vm_compute. reflexivity. Qed.

(** Cycles of length one and two: one definition per namespace, each linked
    to the registered one. *)
Example cycle_of_length_one :
  map (fun d => (target_namespace d, _resolved_imports d, imports d))
      (heap (document_of (@Document_init _ sample 13 (Location (Some "self.wsdl")))))
  = [(Some "urn:self", true, [(Some "urn:self", 0)])].
Proof. vm_compute. reflexivity. Qed.

Example cycle_of_length_two :
  map (fun d => (target_namespace d, _resolved_imports d, imports d))
      (heap (document_of (@Document_init _ sample 13 (Location (Some "x.wsdl")))))
  = [(Some "urn:x", true, [(Some "urn:y", 1)]);
     (Some "urn:y", true, [(Some "urn:x", 0)])].
Proof. vm_compute. reflexivity. Qed.


(** The constructor on [loop.wsdl] calls itself on [loop.wsdl], in a
    document that has the new definition registered under [urn:loop] and
    nothing under [urn:other]. *)
Lemma Definition_init_loop (fuel : nat) (w : Document) (loc : option string) :
  _definitions w !! Some "urn:other" = None ->
  @Definition_init _ sample_loop fuel w loop_wsdl loc = Diverge.
Proof.
  revert w loc. induction fuel as [|fuel IH]; intros w loc Hreg; [reflexivity|].
  rewrite Definition_init_S. unfold parse_imports.
  change (findall loop_wsdl (wsdl "import")) with [import_decl "urn:other" "loop.wsdl"].
  cbn [parse_imports_loop]. unfold parse_import.
  change (el_get (import_decl "urn:other" "loop.wsdl") "namespace") with (Some "urn:other").
  change (el_get (import_decl "urn:other" "loop.wsdl") "location") with (Some "loop.wsdl").
  assert (Hreg1 : _definitions (registered w loop_wsdl loc) !! Some "urn:other" = None).
  { simpl. rewrite lookup_insert_ne by discriminate. exact Hreg. }
  rewrite Hreg1.
  change (_load_content (registered w loop_wsdl loc) (Location (Some "loop.wsdl")))
    with (Ok (A := Element) loop_wsdl).
  cbn [mbind Result_bind].
  change (String.eqb (localname (tag loop_wsdl)) "schema") with false.
  cbv iota. rewrite IH by exact Hreg1. reflexivity.
Qed.


(** Witness of C3: resolving the root of [a.wsdl] a second time. *)
Lemma resolve_imports_idempotent_witness :
  @resolve_imports _ sample 5 a_parsed 0 = Done (Ok a_resolved) /\
  field _resolved_imports a_parsed 0 = Some false /\
  field _resolved_imports a_resolved 0 = Some true /\
  (forall fuel', @resolve_imports _ sample (S fuel') a_resolved 0 = Done (Ok a_resolved)).
Proof.
  assert (Hcall : @resolve_imports _ sample 5 a_parsed 0 = Done (Ok a_resolved))
    by (vm_compute; reflexivity).
  split; [exact Hcall|]. split; [vm_compute; reflexivity|]. split; [vm_compute; reflexivity|].
  exact (proj1 (proj2 (proj2 (proj2
           (@resolve_imports_idempotent _ sample 5 a_parsed a_resolved 0 Hcall))))).
Defined.

(** Every message of the cycle is resolved exactly once. *)
Example a_resolved_messages :
  map (fun d => dict_values (messages d)) (heap a_resolved)
  = [[MessageObj ("GetPriceRequest", 1); MessageObj ("Shared", 1)];
     [MessageObj ("Shared", 1); MessageObj ("OnlyB", 1)];
     [MessageObj ("OnlyC", 1)]].
Proof. vm_compute. reflexivity. Qed.



(** Witness of C9: a key that neither [a] nor its import [b] has. *)
Lemma get_not_found_witness :
  get a_parsed 0 messages_t "GetQuoteRequest"
    = Raise (IndexError "No definition 'messages' found").
Proof.
  apply (get_not_found a_parsed 0 messages_t "GetQuoteRequest").
  - eexists. split; vm_compute; reflexivity.
  - vm_compute. repeat constructor. eexists. split; vm_compute; reflexivity.
Defined.

(** Counterexample to C9 as stated: the failure of a lookup is the same for
    two different keys, so it does not carry the key. *)
Lemma get_failure_omits_the_key :
  get a_parsed 0 messages_t "GetQuoteRequest"
    = Raise (IndexError "No definition 'messages' found") /\
  get a_parsed 0 messages_t "OnlyC"
    = Raise (IndexError "No definition 'messages' found") /\
  "GetQuoteRequest" <> "OnlyC".
Proof. split; [reflexivity|]. split; [reflexivity|]. discriminate. Qed.

(** C1: the code at a definition without a schema whose import has one.  The
    root of [p.wsdl] has no schema after its construction, its only import
    has a schema that is not empty, and [resolve_imports] leaves the root
    with the empty schema of its own location: the [for] loop has no
    [break], so its [else] branch overwrites what the loop adopted. *)
Theorem resolve_imports_discards_imported_schema :
  field schema p_parsed 0 = Some None /\
  direct_imports p_parsed 0 = [1] /\
  field schema p_parsed 1 = Some (Some (mkSchema (Some q_schema) (Some "q.wsdl"))) /\
  @is_empty _ sample (mkSchema (Some q_schema) (Some "q.wsdl")) = false /\
  field schema (resolved_of p_parsed (@resolve_imports _ sample 5 p_parsed 0)) 0
    = Some (Some (mkSchema None (Some "p.wsdl"))).
Proof. repeat split; vm_compute; reflexivity. Qed.

(** C6: the code at a definition that imports a bare schema.  [parse_imports]
    assigns the imported schema to the definition and adds no import, and
    the next statement of [__init__], [self.schema = self.parse_types(doc)],
    overwrites it: the constructed definition has no schema. *)
Theorem schema_import_is_overwritten :
  @load_external _ sample (Some "types.xsd") (Some "s.wsdl") = Ok types_xsd /\
  localname (tag types_xsd) = "schema" /\
  field schema
    (resolved_of (new_document (Location (Some "s.wsdl")))
       (@parse_imports _ sample (@Definition_init _ sample 4) 0 (Some "s.wsdl")
          (registered (new_document (Location (Some "s.wsdl"))) s_wsdl (Some "s.wsdl"))
          s_wsdl)) 0
    = Some (Some (mkSchema (Some types_xsd) (Some "types.xsd"))) /\
  constructed schema
    (@Definition_init _ sample 5 (new_document (Location (Some "s.wsdl"))) s_wsdl
       (Some "s.wsdl")) = Some None /\
  constructed imports
    (@Definition_init _ sample 5 (new_document (Location (Some "s.wsdl"))) s_wsdl
       (Some "s.wsdl")) = Some [].
Proof. repeat split; vm_compute; reflexivity. Qed.

(** The bindings of [a.wsdl]: [Both] matches SOAP 1.1 and SOAP 1.2 and is a
    SOAP 1.1 binding; [Unknown] matches nothing and has no entry. *)
Example a_wsdl_bindings :
  @parse_binding _ sample (new_document (Location (Some "a.wsdl"))) 0 a_wsdl
  = Ok [("PriceBinding", BindingObj Soap11Binding ("PriceBinding", 0));
        ("Both", BindingObj Soap11Binding ("Both", 0));
        ("PriceGet", BindingObj HttpGetBinding ("PriceGet", 0))].
Proof. vm_compute. reflexivity. Qed.

(** Witness of C7: the bindings of [a.wsdl] are parsed, and [Both] is a SOAP
    1.1 binding. *)
Lemma parse_binding_first_match_witness :
  (exists table,
     @parse_binding _ sample (new_document (Location (Some "a.wsdl"))) 0 a_wsdl
     = Ok table) /\
  (forall table,
     @parse_binding _ sample (new_document (Location (Some "a.wsdl"))) 0 a_wsdl
     = Ok table ->
     dict_get table "Both" = Some (BindingObj Soap11Binding ("Both", 0))).
Proof.
  pose (H := @parse_binding_first_match _ sample
               (new_document (Location (Some "a.wsdl"))) 0 a_wsdl).
  split.
  - apply (proj1 (proj2 (proj2 H))).
    intros node kind Hin Hc. vm_compute in Hin.
    repeat (destruct Hin as [<-|Hin]); try destruct Hin;
      vm_compute in Hc; try discriminate Hc; eexists; reflexivity.
  - intros table Hparse.
    destruct (proj2 (proj2 (proj2 H)) table Hparse) as [_ Hcomplete].
    destruct (Hcomplete
                [named (wsdl "binding") "PriceBinding" [elem (soap11 "binding") [] []]]
                (named (wsdl "binding") "Both"
                   [elem (soap12 "binding") [] []; elem (soap11 "binding") [] []])
                [named (wsdl "binding") "Unknown" [elem (wsdl "documentation") [] []];
                 named (wsdl "binding") "PriceGet"
                   [elem (http "binding") [("verb", "GET")] []]]
                Soap11Binding eq_refl eq_refl) as (b & Hb & _ & Hlast).
    vm_compute in Hb. injection Hb as <-. apply Hlast.
    intros node' kind' b' Hin [Hc Hp].
    repeat (destruct Hin as [<-|Hin]); try destruct Hin;
      vm_compute in Hc; try discriminate Hc;
      vm_compute in Hp; injection Hp as <-; discriminate.
Defined.


(** The container of the two fragments of [t.wsdl]. *)
Example t_wsdl_container :
  snd <$> (match @parse_types _ sample (new_document (Location (Some "t.wsdl")))
                   (Some "t.wsdl") t_wsdl with
           | Ok r => Some r
           | Raise _ => None
           end)
  = Some (Some (mkSchema
       (Some (elem (xsd "schema") []
          [elem (xsd "import")
             [("schemaLocation", "intschema:xsd0"); ("namespace", "urn:f1")] [];
           elem (xsd "import")
             [("namespace", "urn:f2"); ("schemaLocation", "intschema:xsd1")] [];
           elem (xsd "import")
             [("namespace", "urn:ext"); ("schemaLocation", "ext.xsd")] [];
           elem (xsd "import")
             [("schemaLocation", "intschema:xsd1"); ("namespace", "urn:f2")] []]))
       (Some "t.wsdl"))).
Proof. vm_compute. reflexivity. Qed.

(** Witness of C10: the first fragment of [u.wsdl] imports [urn:elsewhere],
    which no fragment has, without a location. *)
Lemma parse_types_unknown_namespace_witness :
  exists ns,
    @parse_types _ sample (new_document (Location (Some "u.wsdl"))) (Some "u.wsdl") u_wsdl
    = Raise (KeyError ns).
Proof.
  apply (@parse_types_unknown_namespace _ sample _ _ _ [g1_schema; f2_schema] g1_schema
           (elem (xsd "import") [("namespace", "urn:elsewhere")] [])).
  - vm_compute. reflexivity.
  - simpl. lia.
  - now left.
  - vm_compute. now left.
  - reflexivity.
  - intros g [<-|[<-|[]]]; discriminate.
Defined.

Example u_wsdl_key_error :
  @parse_types _ sample (new_document (Location (Some "u.wsdl"))) (Some "u.wsdl") u_wsdl
  = Raise (KeyError (Some "urn:elsewhere")).
Proof. vm_compute. reflexivity. Qed.

End SampleRuns.

(** * More sample runs *)

Section MoreSampleRuns.
#[local] Existing Instance sample_entities.
#[local] Existing Instance sample.

Lemma a_empty_registry_typed : registry_typed a_empty.
Proof. intros ns r Hr. simpl in Hr. now rewrite lookup_empty in Hr. Qed.

Lemma a_empty_links_valid : links_valid a_empty.
Proof.
  split.
  - intros ns r Hr. simpl in Hr. now rewrite lookup_empty in Hr.
  - intros r r' Hin. destruct Hin.
Qed.

Lemma a_empty_links_agree : links_agree a_empty.
Proof. intros r d ns r' Hd. simpl in Hd. discriminate. Qed.

Lemma sample_loader_declares_true (base : option string) :
  loader_declares_true base.
Proof.
  intros location document Hload Hschema.
  exact (proj2 (sample_loader_well_formed base location document Hload Hschema)).
Qed.

Lemma a_parsed_unresolved (r : nat) (d : WsdlDefinition ) :
  heap a_parsed !! r = Some d -> _resolved_imports d = false.
Proof.
  assert (HF : Forall (fun d => _resolved_imports d = false) (heap a_parsed))
    by (vm_compute; repeat constructor).
  intros Hd. exact (proj1 (Forall_lookup _ _) HF r d Hd).
Qed.

(** Witness of X2: the constructor on [x.wsdl] in the document that holds
    the three definitions of [a.wsdl]. *)
Lemma constructor_leaves_existing_definitions_witness :
  Definition_init 5 a_parsed x_wsdl (Some "x.wsdl") = Done (Ok (ax_parsed, 3)) /\
  3 = length (heap a_parsed) /\
  doc_location ax_parsed = doc_location a_parsed /\
  (forall r d, heap a_parsed !! r = Some d -> heap ax_parsed !! r = Some d) /\
  (forall r d, length (heap a_parsed) <= r -> heap ax_parsed !! r = Some d ->
     _resolved_imports d = false).
Proof.
  split; [vm_compute; reflexivity|].
  apply (constructor_leaves_existing_definitions 5 a_parsed ax_parsed x_wsdl
           (Some "x.wsdl") 3).
  vm_compute. reflexivity.
Defined.

(** Witness of X3: the definition of [x.wsdl]. *)
Lemma constructor_result_witness :
  exists d, heap ax_parsed !! 3 = Some d /\
    target_namespace d = el_get x_wsdl "targetNamespace" /\
    location d = Some "x.wsdl" /\
    forall ns, In ns (dict_keys (imports d)) -> In ns (declared_namespaces x_wsdl).
Proof.
  apply (constructor_result 5 a_parsed ax_parsed x_wsdl (Some "x.wsdl") 3).
  vm_compute. reflexivity.
Defined.

(** Witness of X4: the document of [a.wsdl], from the empty one. *)
Lemma registry_stays_typed_witness :
  registry_typed a_empty /\ registry_typed a_parsed.
Proof.
  split; [exact a_empty_registry_typed|].
  apply (registry_stays_typed 5 a_empty a_parsed a_wsdl (Some "a.wsdl") 0
           a_empty_registry_typed).
  vm_compute. reflexivity.
Defined.

(** Witness of X5. *)
Lemma constructor_keeps_links_valid_witness :
  links_valid a_empty /\
  links_valid a_parsed /\
  forall r name key e, r < length (heap a_parsed) ->
    get a_parsed r name key = Raise e -> e = no_definition_found name.
Proof.
  split; [exact a_empty_links_valid|].
  apply (constructor_keeps_links_valid 5 a_empty a_parsed a_wsdl (Some "a.wsdl") 0
           a_empty_links_valid).
  vm_compute. reflexivity.
Defined.

(** Witness of X6: the cycle of [a.wsdl], whose declarations name true
    namespaces. *)
Lemma imports_share_registered_definitions_witness :
  declares_true_namespaces (Some "a.wsdl") a_wsdl /\
  (forall r d ns r', heap a_parsed !! r = Some d -> dict_get (imports d) ns = Some r' ->
     _definitions a_parsed !! ns = Some r' /\
     exists d', heap a_parsed !! r' = Some d' /\ target_namespace d' = ns) /\
  (forall r1 r2 d1 d2 ns a b, heap a_parsed !! r1 = Some d1 -> heap a_parsed !! r2 = Some d2 ->
     dict_get (imports d1) ns = Some a -> dict_get (imports d2) ns = Some b -> a = b) /\
  _definitions a_parsed !! el_get a_wsdl "targetNamespace" = Some 0.
Proof.
  assert (Htrue : declares_true_namespaces (Some "a.wsdl") a_wsdl).
  { exact (sample_loader_declares_true (Some "a.wsdl") (Some "a.wsdl") a_wsdl
             eq_refl eq_refl). }
  split; [exact Htrue|].
  apply (imports_share_registered_definitions 5 a_empty a_parsed a_wsdl
           (Some "a.wsdl") 0 (sample_loader_declares_true _) Htrue).
  - reflexivity.
  - exact a_empty_links_agree.
  - exact a_empty_registry_typed.
  - vm_compute. reflexivity.
Defined.

(** Witness of X7: the cycle of [a.wsdl]. *)
Lemma resolve_imports_returns_witness :
  length (heap a_parsed) < 5 /\
  terminates (resolve_imports 5 a_parsed 0) /\
  resolve_imports 7 a_parsed 0 = resolve_imports 5 a_parsed 0 /\
  forall w', resolve_imports 5 a_parsed 0 = Done (Ok w') ->
    length (heap w') = length (heap a_parsed) /\ unresolved w' <= unresolved a_parsed.
Proof.
  split; [vm_compute; lia|].
  apply (resolve_imports_returns 5 7 a_parsed 0); vm_compute; lia.
Defined.

(** Witness of X8. *)
Lemma resolve_imports_keeps_shape_witness :
  resolve_imports 5 a_parsed 0 = Done (Ok a_resolved) /\
  doc_location a_resolved = doc_location a_parsed /\
  _definitions a_resolved = _definitions a_parsed /\
  _parser_context a_resolved = _parser_context a_parsed /\
  length (heap a_resolved) = length (heap a_parsed) /\
  forall r d, heap a_parsed !! r = Some d ->
    exists d', heap a_resolved !! r = Some d' /\
      location d' = location d /\
      target_namespace d' = target_namespace d /\
      imports d' = imports d /\
      forall name, dict_keys (getattr d' name) = dict_keys (getattr d name).
Proof.
  split; [vm_compute; reflexivity|].
  apply (resolve_imports_keeps_shape 5 a_parsed a_resolved 0).
  vm_compute. reflexivity.
Defined.

(** Witness of X9: [c.wsdl] is an import of an import of [a.wsdl]. *)
Lemma resolve_imports_resolves_reachable_witness :
  reachable a_parsed 0 2 /\
  exists d, heap a_resolved !! 2 = Some d /\ _resolved_imports d = true /\ schema d <> None.
Proof.
  assert (Hreach : reachable a_parsed 0 2).
  { apply (reachable_import a_parsed 0 1 2); [vm_compute; auto|].
    apply (reachable_import a_parsed 1 2 2); [vm_compute; auto|].
    apply reachable_here. }
  split; [exact Hreach|].
  apply (resolve_imports_resolves_reachable 5 a_parsed a_resolved 0 2
           a_parsed_unresolved); [vm_compute; reflexivity|exact Hreach].
Defined.

(** Witness of X10: the document of [a.wsdl]. *)
Lemma document_is_resolved_witness :
  Document_init 13 (Location (Some "a.wsdl")) = Done (Ok (a_document, 0)) /\
  0 = 0 /\
  doc_location a_document = Some "a.wsdl" /\
  (exists document d,
     _load_content (new_document (Location (Some "a.wsdl")))
       (Location (Some "a.wsdl")) = Ok document /\
     heap a_document !! 0 = Some d /\
     location d = doc_location a_document /\
     target_namespace d = el_get document "targetNamespace") /\
  (forall r, reachable a_document 0 r ->
     (exists d, heap a_document !! r = Some d /\ _resolved_imports d = true /\
        schema d <> None) /\
     forall fuel', resolve_imports (S fuel') a_document r = Done (Ok a_document)) /\
  registry_typed a_document /\
  links_valid a_document.
Proof.
  split; [vm_compute; reflexivity|].
  apply (document_is_resolved 13 (Location (Some "a.wsdl")) a_document 0).
  vm_compute. reflexivity.
Defined.

(** Witness of X11. *)
Lemma resolve_imports_keeps_lookups_witness :
  resolve_imports 5 a_parsed 0 = Done (Ok a_resolved) /\
  forall r name key,
    same_outcome (get a_parsed r name key)
      (get a_resolved r name key) /\
    (forall e, get a_parsed r name key = Raise e <->
               get a_resolved r name key = Raise e).
Proof.
  split; [vm_compute; reflexivity|].
  apply (resolve_imports_keeps_lookups 5 a_parsed a_resolved 0).
  vm_compute. reflexivity.
Defined.

(** Witness of X12: the two fragments of [t.wsdl]. *)
Lemma parse_types_records_locations_witness :
  reparse t_empty (Some "t.wsdl") (find_schema_nodes t_wsdl)
    = Ok [f1_schema; f2_schema] /\
  (length [f1_schema; f2_schema] < 2 -> fst t_types = t_empty) /\
  (2 <= length [f1_schema; f2_schema] ->
     heap (fst t_types) = heap t_empty /\ _definitions (fst t_types) = _definitions t_empty /\
     doc_location (fst t_types) = doc_location t_empty /\
     (forall i, i < length [f1_schema; f2_schema] ->
        dict_get (schema_locations (_parser_context (fst t_types))) (int_name i)
          = Some (Some "t.wsdl")) /\
     (forall k, (forall i, i < length [f1_schema; f2_schema] -> k <> int_name i) ->
        dict_get (schema_locations (_parser_context (fst t_types))) k
          = dict_get (schema_locations (_parser_context t_empty)) k)) /\
  (forall i j, int_name i = int_name j -> i = j).
Proof.
  split; [vm_compute; reflexivity|].
  apply (parse_types_records_locations t_empty (fst t_types) (Some "t.wsdl")
           t_wsdl [f1_schema; f2_schema] (snd t_types)); vm_compute; reflexivity.
Defined.

End MoreSampleRuns.
